(** * TThreadedServer: the thread-per-connection server of lib/cpp

    A shallow embedding of [lib/cpp/src/server/TThreadedServer.cpp]:
    [TThreadedServer::Task::run] and [TThreadedServer::serve], written in a
    small state-and-exception monad over the members of the server object,
    and an interleaving machine in which the accept loop, the worker
    threads and an external caller of [stop()] take turns.

    The collaborators (transports, factories, processor, thread factory,
    event handler, monitor) are not part of this file: every call to one
    of them is answered by an oracle that says whether the call returns,
    and what, or which exception it throws. *)

From stdpp Require Import gmap strings list.

Set Default Proof Using "Type".

(** ** Exceptions *)

(** [TTransportException::getType()].  The server only ever compares the
    type with [INTERRUPTED]; every other type is kept as an uninterpreted
    tag. *)
Inductive TTransportExceptionType :=
| INTERRUPTED
| OTHER_TYPE (tag : nat).

(** What a C++ call can throw, as far as the [catch] clauses of this file
    tell exceptions apart: a [TTransportException], another [TException],
    a [std::string], or anything else. *)
Inductive exn :=
| TTransportException (ty : TTransportExceptionType) (msg : string)
| TException (msg : string)
| StdString (s : string)
| Unknown.

Definition is_INTERRUPTED (ty : TTransportExceptionType) : bool :=
  match ty with INTERRUPTED => true | OTHER_TYPE _ => false end.

(** The outcome of a call to a collaborator. *)
Inductive outcome (A : Type) :=
| Returns (a : A)
| Throws (e : exn).
Arguments Returns {A} a.
Arguments Throws {A} e.

(** ** The state: server members, the locals of [serve()], and history *)

(** A [TThreadedServer::Task*] is an address: [tasks_] is a set of such
    pointers, and [erase(this)] removes by address.  A transport or
    protocol object is an opaque number. *)
Abbreviation Task := nat (only parsing).
Abbreviation handle := nat (only parsing).

(** Calls made to collaborators and to the monitor, in program order. *)
Inductive event :=
| ClientBegin (t : Task)
| Process (t : Task)
| Peek (t : Task)
| ClientEnd (t : Task)
| CloseInput (t : Task)
| CloseOutput (t : Task)
| GlobalOutput (msg : string)
| Erase (t : Task)
| Notify
| Listen
| PreServe
| Accept
| GetInputTransport
| GetOutputTransport
| GetInputProtocol
| GetOutputProtocol
| NewThread (t : Task)
| Insert (t : Task)
| Start (t : Task)
| CloseInputTransport
| CloseOutputTransport
| CloseClient
| CloseServerTransport
| Wait.

(** A thread handed to [thread->start()].  The state keeps, by the
    address of its task, the thread that [newThread] made last for a task
    at that address, from the moment it is started. *)
Inductive thread_status :=
| Running                 (* started, and before the last block of [Task::run] *)
| Returned                (* through the last block of [Task::run], which returns *)
| Aborted (e : exn).      (* an exception left [Task::run] *)

(** Where the thread that called [serve()] is: the program points of
    [serve()] at which another thread can be scheduled. *)
Inductive server_pc :=
| Idle                    (* [serve()] has not been called *)
| LoopHead                (* about to test [while (!stop_)] *)
| InTry                   (* inside the [try], before [accept()] *)
| Starting (t : Task)     (* [tasks_.insert(task)] done, before [thread->start()] *)
| AfterLoop               (* after the loop, before [if (stop_)] *)
| Drain                   (* [while (!tasks_.empty()) tasksMonitor_.wait()] *)
| Reset                   (* before [stop_ = false] *)
| Done                    (* [serve()] returned *)
| Escaped (e : exn).      (* an exception left [serve()] *)

Record state := mkState {
  tasks_ : gset Task;
  stop_ : bool;
  output : list event;
  threads : gmap Task thread_status;
  client : option handle;
  inputTransport : option handle;
  outputTransport : option handle;
  inputProtocol : option handle;
  outputProtocol : option handle;
  pc : server_pc
}.

Definition initial : state :=
  mkState ∅ false [] ∅ None None None None None Idle.

Definition set_tasks (ts : gset Task) (s : state) : state :=
  mkState ts (stop_ s) (output s) (threads s)
    (client s) (inputTransport s) (outputTransport s)
    (inputProtocol s) (outputProtocol s) (pc s).

Definition set_stop (b : bool) (s : state) : state :=
  mkState (tasks_ s) b (output s) (threads s)
    (client s) (inputTransport s) (outputTransport s)
    (inputProtocol s) (outputProtocol s) (pc s).

Definition add_output (evs : list event) (s : state) : state :=
  mkState (tasks_ s) (stop_ s) (output s ++ evs) (threads s)
    (client s) (inputTransport s) (outputTransport s)
    (inputProtocol s) (outputProtocol s) (pc s).

Definition set_thread (t : Task) (st : thread_status) (s : state) : state :=
  mkState (tasks_ s) (stop_ s) (output s) (<[t := st]> (threads s))
    (client s) (inputTransport s) (outputTransport s)
    (inputProtocol s) (outputProtocol s) (pc s).

Definition unset_thread (t : Task) (s : state) : state :=
  mkState (tasks_ s) (stop_ s) (output s) (delete t (threads s))
    (client s) (inputTransport s) (outputTransport s)
    (inputProtocol s) (outputProtocol s) (pc s).

Definition set_client (h : option handle) (s : state) : state :=
  mkState (tasks_ s) (stop_ s) (output s) (threads s)
    h (inputTransport s) (outputTransport s)
    (inputProtocol s) (outputProtocol s) (pc s).

Definition set_inputTransport (h : option handle) (s : state) : state :=
  mkState (tasks_ s) (stop_ s) (output s) (threads s)
    (client s) h (outputTransport s)
    (inputProtocol s) (outputProtocol s) (pc s).

Definition set_outputTransport (h : option handle) (s : state) : state :=
  mkState (tasks_ s) (stop_ s) (output s) (threads s)
    (client s) (inputTransport s) h
    (inputProtocol s) (outputProtocol s) (pc s).

Definition set_inputProtocol (h : option handle) (s : state) : state :=
  mkState (tasks_ s) (stop_ s) (output s) (threads s)
    (client s) (inputTransport s) (outputTransport s)
    h (outputProtocol s) (pc s).

Definition set_outputProtocol (h : option handle) (s : state) : state :=
  mkState (tasks_ s) (stop_ s) (output s) (threads s)
    (client s) (inputTransport s) (outputTransport s)
    (inputProtocol s) h (pc s).

Definition set_pc (p : server_pc) (s : state) : state :=
  mkState (tasks_ s) (stop_ s) (output s) (threads s)
    (client s) (inputTransport s) (outputTransport s)
    (inputProtocol s) (outputProtocol s) p.

(** ** The monad: state, exceptions, and fuel for the one unbounded loop *)

Inductive res (A : Type) :=
| Ret (a : A)             (* normal completion *)
| Exc (e : exn)           (* an exception is propagating *)
| Fuel.                   (* no result: the processing loop was cut off, or
                             an oracle answered what it cannot answer *)
Arguments Ret {A} a.
Arguments Exc {A} e.
Arguments Fuel {A}.

Definition M (A : Type) : Type := state → res A * state.

Definition ret {A} (a : A) : M A := λ s, (Ret a, s).

Definition throw {A} (e : exn) : M A := λ s, (Exc e, s).

Definition bind {A B} (m : M A) (k : A → M B) : M B :=
  λ s, match m s with
       | (Ret a, s') => k a s'
       | (Exc e, s') => (Exc e, s')
       | (Fuel, s') => (Fuel, s')
       end.

Global Instance M_ret : MRet M := @ret.
Global Instance M_bind : MBind M := λ A B k m, bind m k.

(** [try { m } catch ...]: [h e] is the body of the first clause that
    matches [e], or [None] when no clause does and [e] keeps propagating. *)
Definition try_catch {A} (m : M A) (h : exn → option (M A)) : M A :=
  λ s, match m s with
       | (Exc e, s') => match h e with Some k => k s' | None => (Exc e, s') end
       | r => r
       end.

Definition modify (f : state → state) : M unit := λ s, (Ret (), f s).

Definition get {A} (f : state → A) : M A := λ s, (Ret (f s), s).

Definition emit (ev : event) : M unit := modify (add_output [ev]).

(** A call to a collaborator: it is recorded, then returns or throws. *)
Definition call {A} (ev : event) (o : outcome A) : M A :=
  emit ev;;
  match o with
  | Returns a => ret a
  | Throws e => throw e
  end.

Definition when (b : bool) (m : M unit) : M unit := if b then m else ret ().

(** ** [TThreadedServer::Task::run] *)

(** What the event handler installed on the server does when a task calls it. *)
Record TServerEventHandler := {
  clientBegin : outcome unit;
  clientEnd : outcome unit
}.

(** The collaborators of one task: [server_.getEventHandler()] ([None] is
    the NULL handler), the [k]-th calls of [processor_->process] and of
    [peek()], and the two [close()] calls. *)
Record connection := {
  eventHandler : option TServerEventHandler;
  process : nat → outcome bool;
  peek : nat → outcome bool;
  input_close : outcome unit;
  output_close : outcome unit
}.

(** [while (processor_->process(input_, output_)) { if (!peek()) break; }],
    from its [k]-th turn on, cut off after [fuel] turns. *)
Fixpoint process_loop (c : connection) (self : Task) (fuel k : nat) : M unit :=
  match fuel with
  | 0 => λ s, (Fuel, s)
  | S fuel' =>
      more ← call (Process self) (process c k);
      if more : bool then
        avail ← call (Peek self) (peek c k);
        if avail : bool then process_loop c self fuel' (S k) else ret ()
      else ret ()
  end.

(** The three [catch] clauses around the loop; the last one is [catch (...)]. *)
Definition loop_catch (e : exn) : option (M unit) :=
  Some match e with
       | TTransportException _ msg =>
           emit (GlobalOutput ("TThreadedServer client died: " +:+ msg))
       | TException msg =>
           emit (GlobalOutput ("TThreadedServer exception: " +:+ msg))
       | _ => emit (GlobalOutput "TThreadedServer uncaught exception.")
       end.

(** [catch (TTransportException& ttx)] around a [close()]. *)
Definition close_catch (prefix : string) (e : exn) : option (M unit) :=
  match e with
  | TTransportException _ msg => Some (emit (GlobalOutput (prefix +:+ msg)))
  | _ => None
  end.

(** The block under [Synchronized s(server_.tasksMonitor_)]. *)
Definition deregister (self : Task) : M unit :=
  modify (λ s, set_tasks (tasks_ s ∖ {[self]}) s);;
  emit (Erase self);;
  empty ← get (λ s, bool_decide (tasks_ s = ∅));
  when empty (emit Notify).

(** The loop in its [try]. *)
Definition guarded_loop (c : connection) (self : Task) (fuel : nat) : M unit :=
  try_catch (process_loop c self fuel 0) loop_catch.

(** [input_->getTransport()->close()] in its [try]. *)
Definition close_input (c : connection) (self : Task) : M unit :=
  try_catch (call (CloseInput self) (input_close c))
    (close_catch "TThreadedServer input close failed: ").

(** [output_->getTransport()->close()] in its [try]. *)
Definition close_output (c : connection) (self : Task) : M unit :=
  try_catch (call (CloseOutput self) (output_close c))
    (close_catch "TThreadedServer output close failed: ").

(** [if (eventHandler != NULL) { eventHandler->clientBegin(input_, output_); }] *)
Definition connection_begin (c : connection) (self : Task) : M unit :=
  match eventHandler c with
  | Some h => call (ClientBegin self) (clientBegin h)
  | None => ret ()
  end.

(** [if (eventHandler != NULL) { eventHandler->clientEnd(input_, output_); }] *)
Definition connection_end (c : connection) (self : Task) : M unit :=
  match eventHandler c with
  | Some h => call (ClientEnd self) (clientEnd h)
  | None => ret ()
  end.

(** [Task::run] of the task [self], on the connection [c]. *)
Definition Task_run (c : connection) (self : Task) (fuel : nat) : M unit :=
  connection_begin c self;;
  guarded_loop c self fuel;;
  connection_end c self;;
  close_input c self;;
  close_output c self;;
  deregister self.

(** ** [TThreadedServer::serve] *)

(** The collaborators of the accept loop, as one step of it finds them.
    [preServe] is [None] when [eventHandler_] is NULL, and [allocated] is
    the address [new TThreadedServer::Task(...)] returns. *)
Record serve_env := {
  listen : outcome unit;
  preServe : option (outcome unit);
  accept : outcome handle;
  getInputTransport : outcome handle;
  getOutputTransport : outcome handle;
  getInputProtocol : outcome handle;
  getOutputProtocol : outcome handle;
  allocated : Task;
  newThread : outcome unit;
  start : outcome unit;
  close_inputTransport : outcome unit;
  close_outputTransport : outcome unit;
  close_client : outcome unit;
  close_serverTransport : outcome unit;
  wait : outcome unit
}.

(** The five [shared_ptr] locals of [serve()], declared empty. *)
Definition serve_locals : M unit :=
  modify (set_client None);;
  modify (set_inputTransport None);;
  modify (set_outputTransport None);;
  modify (set_inputProtocol None);;
  modify (set_outputProtocol None).

(** [serverTransport_->listen()] in its [try]; [false] is the early [return]. *)
Definition serve_listen (env : serve_env) : M bool :=
  try_catch (call Listen (listen env);; ret true)
    (λ e, match e with
          | TTransportException _ msg =>
              Some (emit (GlobalOutput ("TThreadedServer::run() listen(): " +:+ msg));;
                    ret false)
          | _ => None
          end).

Definition serve_preServe (env : serve_env) : M unit :=
  match preServe env with
  | Some o => call PreServe o
  | None => ret ()
  end.

(** [new TThreadedServer::Task(...)]: the allocator's answer is the
    address of the new task.  A task whose thread is inside [Task::run]
    is alive, so its address is not handed out; an allocator that
    answers with it is no allocator, and there is no result.  Any other
    address can be the answer, also that of an earlier task: the
    [shared_ptr]s [runnable] and [thread] are locals of the [try] block,
    and a task whose thread was not started, or has ended, may have been
    deleted by the time of a later [new]. *)
Definition new_Task (env : serve_env) : M Task :=
  λ s, match threads s !! allocated env with
       | Some Running => (Fuel, s)
       | _ => (Ret (allocated env), s)
       end.

(** The [try] block of the loop up to and including [tasks_.insert(task)].
    The thread [newThread] returns has not been started: it replaces
    what [threads] kept for the address of its task. *)
Definition serve_try_accept (env : serve_env) : M Task :=
  modify (set_client None);;
  modify (set_inputTransport None);;
  modify (set_outputTransport None);;
  modify (set_inputProtocol None);;
  modify (set_outputProtocol None);;
  c ← call Accept (accept env);
  modify (set_client (Some c));;
  it ← call GetInputTransport (getInputTransport env);
  modify (set_inputTransport (Some it));;
  ot ← call GetOutputTransport (getOutputTransport env);
  modify (set_outputTransport (Some ot));;
  ip ← call GetInputProtocol (getInputProtocol env);
  modify (set_inputProtocol (Some ip));;
  op ← call GetOutputProtocol (getOutputProtocol env);
  modify (set_outputProtocol (Some op));;
  task ← new_Task env;
  call (NewThread task) (newThread env);;
  modify (unset_thread task);;
  modify (λ s, set_tasks ({[task]} ∪ tasks_ s) s);;
  emit (Insert task);;
  ret task.

(** The rest of the [try] block: [thread->start()]. *)
Definition serve_start (env : serve_env) (task : Task) : M unit :=
  call (Start task) (start env);;
  modify (set_thread task Running).

Definition close_if_set (h : option handle) (ev : event) (o : outcome unit) : M unit :=
  match h with
  | Some _ => call ev o
  | None => ret ()
  end.

(** The three closes every [catch] clause of the loop starts with. *)
Definition close_created (env : serve_env) : M unit :=
  it ← get inputTransport;
  close_if_set it CloseInputTransport (close_inputTransport env);;
  ot ← get outputTransport;
  close_if_set ot CloseOutputTransport (close_outputTransport env);;
  c ← get client;
  close_if_set c CloseClient (close_client env).

Inductive ctl := Continue | Break.

(** The [catch] clauses of the loop, in order. *)
Definition serve_catch (env : serve_env) (e : exn) : option (M ctl) :=
  match e with
  | TTransportException ty msg =>
      Some (close_created env;;
            stop ← get stop_;
            when (negb stop || negb (is_INTERRUPTED ty))
              (emit (GlobalOutput
                 ("TThreadedServer: TServerTransport died on accept: " +:+ msg)));;
            ret Continue)
  | TException msg =>
      Some (close_created env;;
            emit (GlobalOutput ("TThreadedServer: Caught TException: " +:+ msg));;
            ret Continue)
  | StdString str =>
      Some (close_created env;;
            emit (GlobalOutput ("TThreadedServer: Unknown exception: " +:+ str));;
            ret Break)
  | Unknown => None
  end.

(** A part [m] of the [try] block under the [catch] clauses of the loop. *)
Definition guarded {A} (env : serve_env) (m : M A) : M (A + ctl) :=
  try_catch (a ← m; ret (inl a))
    (λ e, (λ h : M ctl, c ← h; ret (inr c)) <$> serve_catch env e).

Definition next_pc (c : ctl) : server_pc :=
  match c with
  | Continue => LoopHead
  | Break => AfterLoop
  end.

Definition shutdown_catch (prefix : string) {A} (a : A) (e : exn) : option (M A) :=
  match e with
  | TTransportException _ msg | TException msg =>
      Some (emit (GlobalOutput (prefix +:+ msg));; ret a)
  | _ => None
  end.

(** [try { serverTransport_->close(); } catch (TException &tx) {...}] *)
Definition serve_close_listener (env : serve_env) : M unit :=
  try_catch (call CloseServerTransport (close_serverTransport env))
    (shutdown_catch "TThreadedServer: Exception shutting down: " ()).

(** One turn of [while (!tasks_.empty()) tasksMonitor_.wait()] in its
    [try]: the test, and the [wait()] that follows it when it fails. *)
Definition serve_join (env : serve_env) : M server_pc :=
  try_catch (empty ← get (λ s, bool_decide (tasks_ s = ∅));
             if empty : bool then ret Reset
             else call Wait (wait env);; ret Drain)
    (shutdown_catch "TThreadedServer: Exception joining workers: " Reset).

(** What the thread in [serve()] does next at [p], and where it is then. *)
Definition serve (env : serve_env) (p : server_pc) : M server_pc :=
  match p with
  | Idle | Done | Escaped _ =>
      serve_locals;;
      listening ← serve_listen env;
      if listening : bool then serve_preServe env;; ret LoopHead
      else ret Done
  | LoopHead =>
      stop ← get stop_;
      ret (if stop : bool then AfterLoop else InTry)
  | InTry =>
      r ← guarded env (serve_try_accept env);
      ret match r with
          | inl task => Starting task
          | inr c => next_pc c
          end
  | Starting task =>
      r ← guarded env (serve_start env task);
      ret match r with
          | inl _ => LoopHead
          | inr c => next_pc c
          end
  | AfterLoop =>
      stop ← get stop_;
      if stop : bool then serve_close_listener env;; ret Drain
      else ret Done
  | Drain => serve_join env
  | Reset => modify (set_stop false);; ret Done
  end.

(** Modelled from the spec: [TThreadedServer::stop()] is defined in
    [server/TThreadedServer.h], which is not among the sources.  The spec:
    "[stop()] (external trigger): sets the stop flag to true.  Does not
    itself close the listening transport or wake blocked workers". *)
Definition stop : M unit := modify (set_stop true).

(** ** The interleaving machine *)

Inductive action :=
| AServe (env : serve_env)                        (* the thread in [serve()] moves *)
| AWorker (t : Task) (c : connection) (fuel : nat)  (* thread [t] runs [Task::run] *)
| AStop.                                          (* somebody calls [stop()] *)

(** One step of the machine.  The thread in [serve()] moves from one of
    its program points to the next; between two points it reads or
    writes [tasks_] or [stop_] at most once.  A worker thread runs
    [Task::run] in one step: a run touches members of the server only in
    its last block, under the monitor, so the step stands for every
    interleaving in which that block is executed now.  The machine does
    not show how far a [Running] thread has got with its calls, and a
    thread is [Returned] from its last block on.  What the thread
    facility does with an exception that leaves [Task::run] is not part
    of this file: the machine keeps the thread as [Aborted] and goes on.
    A run that is cut off is no step: a task whose loop never ends stays
    [Running].  Nor is there a step of [serve()] in which the allocator
    answers with the address of a running task. *)
Definition step (a : action) (s : state) : option state :=
  match a with
  | AServe env =>
      match serve env (pc s) s with
      | (Ret p, s') => Some (set_pc p s')
      | (Exc e, s') => Some (set_pc (Escaped e) s')
      | (Fuel, _) => None
      end
  | AWorker t c fuel =>
      match threads s !! t with
      | Some Running =>
          match Task_run c t fuel s with
          | (Ret _, s') => Some (set_thread t Returned s')
          | (Exc e, s') => Some (set_thread t (Aborted e) s')
          | (Fuel, _) => None
          end
      | _ => None
      end
  | AStop => Some (stop s).2
  end.

(** The actions [l] one after the other. *)
Fixpoint exec (l : list action) (s : state) : option state :=
  match l with
  | [] => Some s
  | a :: l' =>
      match step a s with
      | Some s' => exec l' s'
      | None => None
      end
  end.

(** The states of the machine, from a server on which nothing was called yet. *)
Definition reachable (s : state) : Prop := ∃ l, exec l initial = Some s.

(** ** Vocabulary of the statements *)

(** Turn [k] of the processing loop is followed by another one. *)
Definition continues (c : connection) (k : nat) : bool :=
  match process c k, peek c k with
  | Returns true, Returns true => true
  | _, _ => false
  end.

(** Counted from turn [k], the loop is left in its turn [n]. *)
Definition leaves_at (c : connection) (k n : nat) : Prop :=
  (∀ j, j < n → continues c (k + j) = true) ∧ continues c (k + n) = false.

(** The calls of [n] turns that are each followed by another one. *)
Fixpoint turns (self : Task) (n : nat) : list event :=
  match n with
  | 0 => []
  | S n' => Process self :: Peek self :: turns self n'
  end.

(** The calls of a turn that is not followed by another one, and how the
    loop is left in it. *)
Definition last_turn (c : connection) (self : Task) (k : nat) : res unit * list event :=
  match process c k with
  | Throws e => (Exc e, [Process self])
  | Returns false => (Ret (), [Process self])
  | Returns true =>
      match peek c k with
      | Throws e => (Exc e, [Process self; Peek self])
      | Returns _ => (Ret (), [Process self; Peek self])
      end
  end.

(** The line written for an exception [e] that leaves the loop. *)
Definition loop_message (e : exn) : string :=
  match e with
  | TTransportException _ msg => "TThreadedServer client died: " +:+ msg
  | TException msg => "TThreadedServer exception: " +:+ msg
  | StdString _ | Unknown => "TThreadedServer uncaught exception."
  end.

Definition loop_log (r : res unit) : list event :=
  match r with
  | Exc e => [GlobalOutput (loop_message e)]
  | _ => []
  end.

(** How often task [self] calls [processor_->process] in a list of events. *)
Fixpoint invocations (self : Task) (evs : list event) : nat :=
  match evs with
  | [] => 0
  | Process t :: evs' => (if decide (t = self) then 1 else 0) + invocations self evs'
  | _ :: evs' => invocations self evs'
  end.

Definition begin_returns (c : connection) : Prop :=
  match eventHandler c with
  | Some h => clientBegin h = Returns ()
  | None => True
  end.

Definition end_returns (c : connection) : Prop :=
  match eventHandler c with
  | Some h => clientEnd h = Returns ()
  | None => True
  end.

Definition begin_events (c : connection) (self : Task) : list event :=
  match eventHandler c with
  | Some _ => [ClientBegin self]
  | None => []
  end.

Definition end_events (c : connection) (self : Task) : list event :=
  match eventHandler c with
  | Some _ => [ClientEnd self]
  | None => []
  end.

(** A call returns, or fails with a [TTransportException]. *)
Definition transport_failure_at_most {A} (o : outcome A) : Prop :=
  match o with
  | Returns _ | Throws (TTransportException _ _) => True
  | Throws _ => False
  end.

(** The line written when a [close()] fails with a [TTransportException]. *)
Definition close_log (prefix : string) (o : outcome unit) : list event :=
  match o with
  | Throws (TTransportException _ msg) => [GlobalOutput (prefix +:+ msg)]
  | _ => []
  end.

(** What follows [tasks_.erase(this)] when it leaves the set [ts]. *)
Definition notification (ts : gset Task) : list event :=
  if bool_decide (ts = ∅) then [Notify] else [].

(** [Task::run] from the end of the loop's [try] statement on. *)
Definition after_loop (c : connection) (self : Task) : M unit :=
  connection_end c self;;
  close_input c self;;
  close_output c self;;
  deregister self.

(** [Task::run] up to the block under the monitor. *)
Definition before_deregister (c : connection) (self : Task) (fuel : nat) : M unit :=
  connection_begin c self;;
  guarded_loop c self fuel;;
  connection_end c self;;
  close_input c self;;
  close_output c self.

(** The events of task [self] other than those of its deregistration:
    its calls to collaborators, and log lines. *)
Definition is_call (self : Task) (ev : event) : Prop :=
  match ev with
  | ClientBegin t | Process t | Peek t | ClientEnd t | CloseInput t | CloseOutput t =>
      t = self
  | GlobalOutput _ => True
  | _ => False
  end.

(** [m] changes nothing but the history, and adds only calls of task
    [self] and log lines to it; when [quiet] is set none of them is a call
    of the processor, and [m] is not cut off. *)
Definition calls_only (self : Task) (quiet : bool) {A} (m : M A) : Prop :=
  ∀ s, ∃ evs, Forall (is_call self) evs
              ∧ (quiet = true → invocations self evs = 0 ∧ (m s).1 ≠ Fuel)
              ∧ (m s).2 = add_output evs s.

(** [m] only ever adds to the history. *)
Definition extends_output {A} (m : M A) : Prop :=
  ∀ s, ∃ evs, output (m s).2 = output s ++ evs.

(** What a step of the thread in [serve()] does to the registry and to
    the threads. *)
Inductive serve_effect (s s' : state) : Prop :=
| effect_none :
    tasks_ s' = tasks_ s → threads s' = threads s →
    (∀ t, pc s' ≠ Starting t) →
    serve_effect s s'
| effect_insert t :
    pc s = InTry → pc s' = Starting t →
    threads s !! t ≠ Some Running →
    tasks_ s' = {[t]} ∪ tasks_ s → threads s' = delete t (threads s) →
    is_Some (inputTransport s') → is_Some (outputTransport s') → is_Some (client s') →
    serve_effect s s'
| effect_start t :
    pc s = Starting t → pc s' = LoopHead →
    tasks_ s' = tasks_ s → threads s' = <[t := Running]> (threads s) →
    serve_effect s s'.

(** What holds in every state the machine reaches. *)
Definition consistent (s : state) : Prop :=
  (∀ t, threads s !! t = Some Running → t ∈ tasks_ s)
  ∧ (∀ t, threads s !! t = Some Returned → t ∉ tasks_ s)
  ∧ (∀ t e, threads s !! t = Some (Aborted e) → t ∈ tasks_ s)
  ∧ (∀ t, pc s = Starting t →
       t ∈ tasks_ s ∧ threads s !! t = None
       ∧ is_Some (inputTransport s) ∧ is_Some (outputTransport s)
       ∧ is_Some (client s)).

(** The address [t] is registered, and the task that was registered
    with it has no thread and is not about to get one. *)
Definition leaked (t : Task) (s : state) : Prop :=
  t ∈ tasks_ s ∧ threads s !! t = None ∧ pc s ≠ Starting t.

(** The state the machine is in after the actions [l]. *)
Definition state_after (l : list action) : state := default initial (exec l initial).

(** The closes a [catch] clause of the loop starts with, in a state [s]. *)
Definition handler_closes (s : state) : list event :=
  (if inputTransport s is Some _ then [CloseInputTransport] else [])
  ++ (if outputTransport s is Some _ then [CloseOutputTransport] else [])
  ++ (if client s is Some _ then [CloseClient] else []).

(** The closes of the [catch] clauses of the loop return. *)
Definition closes_return (env : serve_env) : Prop :=
  close_inputTransport env = Returns ()
  ∧ close_outputTransport env = Returns ()
  ∧ close_client env = Returns ().

(** The line a [catch] clause of the loop writes for [e], if any, with
    the stop flag at [stopping]. *)
Definition catch_log (stopping : bool) (e : exn) : list event :=
  match e with
  | TTransportException ty msg =>
      if stopping && is_INTERRUPTED ty then []
      else [GlobalOutput ("TThreadedServer: TServerTransport died on accept: " +:+ msg)]
  | TException msg => [GlobalOutput ("TThreadedServer: Caught TException: " +:+ msg)]
  | StdString str => [GlobalOutput ("TThreadedServer: Unknown exception: " +:+ str)]
  | Unknown => []
  end.

(** A call returns, or fails with a [TException] (of which a
    [TTransportException] is one). *)
Definition thrift_failure_at_most {A} (o : outcome A) : Prop :=
  match o with
  | Returns _ | Throws (TTransportException _ _) | Throws (TException _) => True
  | Throws _ => False
  end.

(** The line written when a step of the shutdown fails with a [TException]. *)
Definition shutdown_log (prefix : string) (o : outcome unit) : list event :=
  match o with
  | Throws (TTransportException _ msg) | Throws (TException msg) =>
      [GlobalOutput (prefix +:+ msg)]
  | _ => []
  end.

(** ** Sample connections, environments and schedules *)

(** A client that sends one request and closes. *)
Definition one_request : connection := {|
  eventHandler := None;
  process := λ _, Returns false;
  peek := λ _, Returns true;
  input_close := Returns ();
  output_close := Returns ()
|}.

(** A client that pipelines one request, then drops the connection; the
    input channel then fails to close. *)
Definition dropped_connection : connection := {|
  eventHandler := Some {| clientBegin := Returns (); clientEnd := Returns () |};
  process := λ k, if decide (k < 1) then Returns true
                  else Throws (TTransportException (OTHER_TYPE 4) "No more data to read.");
  peek := λ _, Returns true;
  input_close := Throws (TTransportException (OTHER_TYPE 1) "not open");
  output_close := Returns ()
|}.

(** A client that sends one request and closes; the event handler throws
    from [clientEnd]. *)
Definition failing_hook : connection := {|
  eventHandler :=
    Some {| clientBegin := Returns (); clientEnd := Throws (TException "hook") |};
  process := λ _, Returns false;
  peek := λ _, Returns true;
  input_close := Returns ();
  output_close := Returns ()
|}.

(** A client that sends one request and closes; closing the input channel
    fails with an exception that is not a [TTransportException]. *)
Definition failing_close : connection := {|
  eventHandler := None;
  process := λ _, Returns false;
  peek := λ _, Returns true;
  input_close := Throws (TException "close");
  output_close := Returns ()
|}.

(** Task [0] registered, and nothing else. *)
Definition one_task : state := set_tasks {[0]} initial.

(** Collaborators of [serve()] that do what they are asked, but for
    [accept()], [thread->start()] and [serverTransport_->close()], which
    do as given. *)
Definition environment (accepting : outcome handle)
    (starting closing : outcome unit) : serve_env := {|
  listen := Returns ();
  preServe := None;
  accept := accepting;
  getInputTransport := Returns 2;
  getOutputTransport := Returns 3;
  getInputProtocol := Returns 4;
  getOutputProtocol := Returns 5;
  allocated := 0;
  newThread := Returns ();
  start := starting;
  close_inputTransport := Returns ();
  close_outputTransport := Returns ();
  close_client := Returns ();
  close_serverTransport := closing;
  wait := Returns ()
|}.

Definition well_behaved : serve_env :=
  environment (Returns 1) (Returns ()) (Returns ()).

(** The environment [env], with the allocator handing out address [t]. *)
Definition at_address (t : Task) (env : serve_env) : serve_env := {|
  listen := listen env;
  preServe := preServe env;
  accept := accept env;
  getInputTransport := getInputTransport env;
  getOutputTransport := getOutputTransport env;
  getInputProtocol := getInputProtocol env;
  getOutputProtocol := getOutputProtocol env;
  allocated := t;
  newThread := newThread env;
  start := start env;
  close_inputTransport := close_inputTransport env;
  close_outputTransport := close_outputTransport env;
  close_client := close_client env;
  close_serverTransport := close_serverTransport env;
  wait := wait env
|}.

(** The listening socket fails in [accept()] with an error that is not
    an interruption. *)
Definition listener_died : serve_env :=
  environment (Throws (TTransportException (OTHER_TYPE 0) "accept()"))
    (Returns ()) (Returns ()).

(** [accept()] throws a [std::string]. *)
Definition unknown_failure : serve_env :=
  environment (Throws (StdString "boom")) (Returns ()) (Returns ()).

(** Closing the listening transport throws a [std::string]. *)
Definition listener_close_fails : serve_env :=
  environment (Returns 1) (Returns ()) (Throws (StdString "close")).

(** [thread->start()] fails with a [TException]. *)
Definition start_fails : serve_env :=
  environment (Returns 1) (Throws (TException "pthread_create failed")) (Returns ()).

(** [thread->start()] fails with a [TTransportException] of type
    [INTERRUPTED]. *)
Definition start_interrupted : serve_env :=
  environment (Returns 1) (Throws (TTransportException INTERRUPTED "interrupted"))
    (Returns ()).

(** [thread->start()] fails with a [TException], and closing the input
    transport in the [catch] clause fails in its turn. *)
Definition start_and_close_fail : serve_env := {|
  listen := Returns ();
  preServe := None;
  accept := Returns 1;
  getInputTransport := Returns 2;
  getOutputTransport := Returns 3;
  getInputProtocol := Returns 4;
  getOutputProtocol := Returns 5;
  allocated := 0;
  newThread := Returns ();
  start := Throws (TException "pthread_create failed");
  close_inputTransport := Throws (TTransportException (OTHER_TYPE 1) "not open");
  close_outputTransport := Returns ();
  close_client := Returns ();
  close_serverTransport := Returns ();
  wait := Returns ()
|}.

(** [serve()] is called and enters the loop; then [stop()] is called. *)
Definition stopped_in_accept : list action :=
  [AServe well_behaved; AServe well_behaved; AStop].

(** [serve()] accepts a connection and registers its task. *)
Definition registered_not_started : list action :=
  [AServe well_behaved; AServe well_behaved; AServe well_behaved].


(** One connection served from [accept()] to the return of [serve()]:
    the task runs while [serve()] waits for it. *)
Definition served_and_stopped : list action :=
  [AServe well_behaved; AServe well_behaved; AServe well_behaved; AServe well_behaved;
   AStop; AServe well_behaved; AServe well_behaved; AServe well_behaved;
   AWorker 0 one_request 1; AServe well_behaved; AServe well_behaved].

(** ** Vocabulary of the further properties *)

(** How often task [t] closes its input channel in a list of events. *)
Fixpoint input_closes (t : Task) (evs : list event) : nat :=
  match evs with
  | [] => 0
  | CloseInput t' :: evs' => (if decide (t' = t) then 1 else 0) + input_closes t evs'
  | _ :: evs' => input_closes t evs'
  end.

(** How often task [t] closes its output channel in a list of events. *)
Fixpoint output_closes (t : Task) (evs : list event) : nat :=
  match evs with
  | [] => 0
  | CloseOutput t' :: evs' => (if decide (t' = t) then 1 else 0) + output_closes t evs'
  | _ :: evs' => output_closes t evs'
  end.

(** [serve()] is not running. *)
Definition outside_serve (s : state) : Prop :=
  pc s = Idle ∨ pc s = Done ∨ ∃ e, pc s = Escaped e.

(** The state [s] with the locals of [serve()] empty. *)
Definition null_locals (s : state) : state :=
  set_outputProtocol None
    (set_inputProtocol None
       (set_outputTransport None (set_inputTransport None (set_client None s)))).

(** The call of [preServe], when an event handler is installed. *)
Definition preServe_events (env : serve_env) : list event :=
  if preServe env is Some _ then [PreServe] else [].

(** The handler's [clientEnd] throws; everything else goes well. *)
Definition failing_hook_after (n : nat) : connection := {|
  eventHandler :=
    Some {| clientBegin := Returns (); clientEnd := Throws (TException "hook") |};
  process := λ k, Returns (bool_decide (k < n));
  peek := λ _, Returns true;
  input_close := Returns ();
  output_close := Returns ()
|}.

(** [listen()] fails as given. *)
Definition cannot_listen (e : exn) : serve_env := {|
  listen := Throws e;
  preServe := None;
  accept := Returns 1;
  getInputTransport := Returns 2;
  getOutputTransport := Returns 3;
  getInputProtocol := Returns 4;
  getOutputProtocol := Returns 5;
  allocated := 0;
  newThread := Returns ();
  start := Returns ();
  close_inputTransport := Returns ();
  close_outputTransport := Returns ();
  close_client := Returns ();
  close_serverTransport := Returns ();
  wait := Returns ()
|}.


(** One connection is accepted and its thread started; then [stop()] is
    called and [serve()] gets as far as waiting for the task. *)
Definition draining_one_task : list action :=
  [AServe well_behaved; AServe well_behaved; AServe well_behaved; AServe well_behaved;
   AStop; AServe well_behaved; AServe well_behaved].


(** A call returns. *)
Definition returns {A} (o : outcome A) : Prop :=
  match o with
  | Returns _ => True
  | Throws _ => False
  end.

(** Every call of the [try] block before [thread->start()] returns. *)
Definition accepts (env : serve_env) : Prop :=
  returns (accept env)
  ∧ returns (getInputTransport env) ∧ returns (getOutputTransport env)
  ∧ returns (getInputProtocol env) ∧ returns (getOutputProtocol env)
  ∧ returns (newThread env).

(** In the action [a] the allocator is ready to hand out the address [t]. *)
Definition hands_out (t : Task) (a : action) : Prop :=
  match a with
  | AServe env => allocated env = t
  | _ => False
  end.

(** The thread of the first connection cannot be started; [serve()] is
    back in its [try] block, with the address of that task in [tasks_]. *)
Definition stale_entry : list action :=
  registered_not_started ++ [AServe start_fails; AServe well_behaved].

(** After the failed start [stop()] is called; [serve()] leaves its loop
    and starts waiting.  The allocator hands out the address [1] from
    then on. *)
Definition stopped_after_failed_start : list action :=
  [AStop; AServe (at_address 1 well_behaved); AServe (at_address 1 well_behaved)].

(** ** Reasoning about the monad *)

Lemma add_output_add_output evs1 evs2 s :
  add_output evs2 (add_output evs1 s) = add_output (evs1 ++ evs2) s.
Proof. unfold add_output; simpl. by rewrite <-(assoc_L (++)). Qed.

Lemma add_output_nil s : add_output [] s = s.
Proof. destruct s; unfold add_output; simpl. by rewrite app_nil_r. Qed.

Ltac munfold :=
  cbv beta iota delta
    [mbind M_bind bind mret M_ret ret throw try_catch modify get emit call when
     fmap option_fmap option_map fst snd].

Ltac mstate :=
  cbv beta iota delta
    [mbind M_bind bind mret M_ret ret throw try_catch modify get emit call when
     fmap option_fmap option_map fst snd
     set_tasks set_stop add_output set_thread unset_thread set_client
     set_inputTransport set_outputTransport set_inputProtocol set_outputProtocol
     set_pc tasks_ stop_ output threads client inputTransport
     outputTransport inputProtocol outputProtocol pc].

Tactic Notation "mstate" "in" hyp(H) :=
  cbv beta iota delta
    [mbind M_bind bind mret M_ret ret throw try_catch modify get emit call when
     fmap option_fmap option_map fst snd
     set_tasks set_stop add_output set_thread unset_thread set_client
     set_inputTransport set_outputTransport set_inputProtocol set_outputProtocol
     set_pc tasks_ stop_ output threads client inputTransport
     outputTransport inputProtocol outputProtocol pc] in H.

Lemma bind_eq {A B} (m : M A) (k : A → M B) s :
  (m ≫= k) s
  = match m s with
    | (Ret a, s') => k a s'
    | (Exc e, s') => (Exc e, s')
    | (Fuel, s') => (Fuel, s')
    end.
Proof. done. Qed.

(** ** The processing loop *)

Section loop.
Context (c : connection) (self : Task).

Lemma continues_true k :
  continues c k = true ↔ process c k = Returns true ∧ peek c k = Returns true.
Proof.
  unfold continues.
  destruct (process c k) as [[]|e]; [destruct (peek c k) as [[]|e']|..]; intuition congruence.
Qed.

Lemma last_turn_not_cut_off k : (last_turn c self k).1 ≠ Fuel.
Proof.
  unfold last_turn.
  destruct (process c k) as [[]|e]; [destruct (peek c k) as [[]|e']|..]; done.
Qed.

Lemma process_loop_leaves n :
  ∀ fuel k s, leaves_at c k n → n < fuel →
    process_loop c self fuel k s
    = ((last_turn c self (k + n)).1,
       add_output (turns self n ++ (last_turn c self (k + n)).2) s).
Proof.
  induction n as [|n IH]; intros [|fuel] k s [Hbefore Hn] Hlt; try lia.
  - rewrite Nat.add_0_r in *. simpl. munfold.
    unfold continues, last_turn in *.
    destruct (process c k) as [[]|e]; [destruct (peek c k) as [[]|e']|..];
      simpl; rewrite ?add_output_add_output; done.
  - pose proof (Hbefore 0 ltac:(lia)) as H0. rewrite Nat.add_0_r in H0.
    simpl. munfold. unfold continues in H0.
    destruct (process c k) as [[]|e]; try done.
    destruct (peek c k) as [[]|e']; try done.
    rewrite (IH fuel (S k)); [|split|lia].
    + replace (S k + n) with (k + S n) by lia.
      by rewrite !add_output_add_output.
    + intros j Hj. replace (S k + j) with (k + S j) by lia. apply Hbefore; lia.
    + by replace (S k + n) with (k + S n) by lia.
Qed.

Lemma process_loop_cut_off :
  ∀ fuel k s, (∀ j, j < fuel → continues c (k + j) = true) →
    process_loop c self fuel k s = (Fuel, add_output (turns self fuel) s).
Proof.
  induction fuel as [|fuel IH]; intros k s Hall; simpl.
  - by rewrite add_output_nil.
  - pose proof (Hall 0 ltac:(lia)) as H0. rewrite Nat.add_0_r in H0.
    munfold. unfold continues in H0.
    destruct (process c k) as [[]|e]; try done.
    destruct (peek c k) as [[]|e']; try done.
    rewrite IH, !add_output_add_output; [done|].
    intros j Hj. replace (S k + j) with (k + S j) by lia. apply Hall; lia.
Qed.

(** Within [fuel] turns the loop is left in some turn, or in none. *)
Lemma leaves_or_not fuel k :
  (∃ n, n < fuel ∧ leaves_at c k n) ∨ (∀ j, j < fuel → continues c (k + j) = true).
Proof.
  induction fuel as [|fuel [(n & Hn & Hl)|Hall]].
  - right. intros; lia.
  - left. exists n. split; [lia|done].
  - destruct (continues c (k + fuel)) eqn:Hc.
    + right. intros j Hj. destruct (decide (j = fuel)) as [->|]; [done|].
      apply Hall; lia.
    + left. exists fuel. split; [lia|]. by split.
Qed.

Lemma guarded_loop_leaves n fuel s :
  leaves_at c 0 n → n < fuel →
  guarded_loop c self fuel s
  = (Ret (), add_output (turns self n ++ (last_turn c self n).2
                           ++ loop_log (last_turn c self n).1) s).
Proof.
  intros Hl Hlt. unfold guarded_loop, try_catch.
  rewrite (process_loop_leaves n fuel 0 s Hl Hlt). simpl.
  pose proof (last_turn_not_cut_off n) as Hcut.
  destruct (last_turn c self n) as [[[]|e|] evs]; simpl.
  - by rewrite app_nil_r.
  - unfold loop_catch. destruct e; munfold; simpl;
      by rewrite add_output_add_output, <-(assoc_L (++)).
  - done.
Qed.

Lemma guarded_loop_cut_off fuel s :
  (∀ j, j < fuel → continues c j = true) →
  guarded_loop c self fuel s = (Fuel, add_output (turns self fuel) s).
Proof.
  intros Hall. unfold guarded_loop, try_catch.
  by rewrite (process_loop_cut_off fuel 0 s Hall).
Qed.

Lemma invocations_app evs1 evs2 :
  invocations self (evs1 ++ evs2) = invocations self evs1 + invocations self evs2.
Proof.
  induction evs1 as [|ev evs1 IH]; [done|].
  destruct ev; simpl; rewrite IH; lia.
Qed.

Lemma invocations_turns n : invocations self (turns self n) = n.
Proof.
  induction n as [|n IH]; [done|].
  simpl. rewrite decide_True by done. by rewrite IH.
Qed.

Lemma invocations_last_turn k : invocations self (last_turn c self k).2 = 1.
Proof.
  unfold last_turn.
  destruct (process c k) as [[]|e]; [destruct (peek c k) as [[]|e']|..];
    simpl; by rewrite decide_True by done.
Qed.

Lemma invocations_loop_log r : invocations self (loop_log r) = 0.
Proof. by destruct r as [|e|]. Qed.

(** ** [Task::run] around the loop *)

Lemma Task_run_begin_throws h e fuel s :
  eventHandler c = Some h → clientBegin h = Throws e →
  Task_run c self fuel s = (Exc e, add_output [ClientBegin self] s).
Proof.
  intros Hh He. unfold Task_run, connection_begin. rewrite Hh, He. by munfold.
Qed.

Lemma Task_run_leaves n fuel s :
  begin_returns c → leaves_at c 0 n → n < fuel →
  Task_run c self fuel s
  = after_loop c self
      (add_output (begin_events c self ++ turns self n ++ (last_turn c self n).2
                     ++ loop_log (last_turn c self n).1) s).
Proof.
  intros Hb Hl Hlt. unfold Task_run, after_loop, connection_begin.
  unfold begin_returns, begin_events in *.
  destruct (eventHandler c) as [h|]; [rewrite Hb|]; munfold;
    rewrite (guarded_loop_leaves n fuel _ Hl Hlt), ?add_output_add_output; done.
Qed.

Lemma Task_run_cut_off fuel s :
  begin_returns c → (∀ j, j < fuel → continues c j = true) →
  (Task_run c self fuel s).1 = Fuel.
Proof.
  intros Hb Hall. unfold Task_run, connection_begin.
  unfold begin_returns in *.
  destruct (eventHandler c) as [h|]; [rewrite Hb|]; munfold;
    by rewrite (guarded_loop_cut_off fuel _ Hall).
Qed.

End loop.

(** ** [Task::run] after the loop *)

Section after_loop.
Context (c : connection) (self : Task).

Lemma after_loop_clean s :
  end_returns c →
  transport_failure_at_most (input_close c) →
  transport_failure_at_most (output_close c) →
  after_loop c self s
  = (Ret (),
     set_tasks (tasks_ s ∖ {[self]})
       (add_output
          (end_events c self
           ++ CloseInput self
              :: close_log "TThreadedServer input close failed: " (input_close c)
           ++ CloseOutput self
              :: close_log "TThreadedServer output close failed: " (output_close c)
           ++ Erase self :: notification (tasks_ s ∖ {[self]})) s)).
Proof.
  unfold end_returns, end_events, after_loop, connection_end, close_input,
    close_output, deregister, notification, close_catch, close_log.
  intros He Hi Ho. destruct s.
  destruct (eventHandler c) as [h|]; [rewrite He|];
    destruct (input_close c) as [[]|[]]; try done;
    destruct (output_close c) as [[]|[]]; try done;
    mstate; case_bool_decide; rewrite <-?(assoc_L (++)); reflexivity.
Qed.

End after_loop.

(** ** Blocks that only call collaborators *)

Section calls.
Context (self : Task).

Lemma calls_only_ret q {A} (a : A) : calls_only self q (mret a).
Proof. intros s. exists []. by rewrite add_output_nil. Qed.

Lemma calls_only_emit q ev :
  is_call self ev → (q = true → invocations self [ev] = 0) → calls_only self q (emit ev).
Proof. intros Hev Hq s. exists [ev]. split_and!; [by constructor|by split; auto|done]. Qed.

Lemma calls_only_call q {A} ev (o : outcome A) :
  is_call self ev → (q = true → invocations self [ev] = 0) → calls_only self q (call ev o).
Proof.
  intros Hev Hq s. exists [ev]. split_and!; [by constructor| |by destruct o].
  intros ?. split; [by auto|]. by destruct o.
Qed.

Lemma calls_only_bind q {A B} (m : M A) (k : A → M B) :
  calls_only self q m → (∀ a, calls_only self q (k a)) → calls_only self q (m ≫= k).
Proof.
  intros Hm Hk s. destruct (Hm s) as (evs1 & Hc1 & Hq1 & Hs1).
  rewrite bind_eq. destruct (m s) as [[a|e|] s1]; simpl in *; subst s1;
    [|exists evs1; split_and!; [done|intros Hq; by destruct (Hq1 Hq)|done]..].
  destruct (Hk a (add_output evs1 s)) as (evs2 & Hc2 & Hq2 & Hs2).
  exists (evs1 ++ evs2). rewrite Hs2, add_output_add_output, invocations_app.
  split_and!; [by apply Forall_app| |done].
  intros Hq. destruct (Hq1 Hq) as [-> _], (Hq2 Hq) as [-> ?]. done.
Qed.

Lemma calls_only_try_catch q {A} (m : M A) h :
  calls_only self q m → (∀ e k, h e = Some k → calls_only self q k) → calls_only self q (try_catch m h).
Proof.
  intros Hm Hh s. destruct (Hm s) as (evs1 & Hc1 & Hq1 & Hs1).
  unfold try_catch. destruct (m s) as [[a|e|] s1]; simpl in *; subst s1;
    [by exists evs1| |by exists evs1].
  destruct (h e) as [k|] eqn:He;
    [|exists evs1; split_and!; [done|intros Hq; by destruct (Hq1 Hq)|done]].
  destruct (Hh e k He (add_output evs1 s)) as (evs2 & Hc2 & Hq2 & Hs2).
  exists (evs1 ++ evs2). rewrite Hs2, add_output_add_output, invocations_app.
  split_and!; [by apply Forall_app| |done].
  intros Hq. destruct (Hq1 Hq) as [-> _], (Hq2 Hq) as [-> ?]. done.
Qed.

End calls.

Section run.
Context (c : connection) (self : Task).

Lemma calls_only_process_loop fuel : ∀ k, calls_only self false (process_loop c self fuel k).
Proof.
  induction fuel as [|fuel IH]; intros k; simpl.
  - intros s. exists []. by rewrite add_output_nil.
  - apply calls_only_bind; [by apply calls_only_call|]. intros [].
    + apply calls_only_bind; [by apply calls_only_call|].
      intros []; [apply IH|apply calls_only_ret].
    + apply calls_only_ret.
Qed.

Lemma calls_only_guarded_loop fuel : calls_only self false (guarded_loop c self fuel).
Proof.
  apply calls_only_try_catch; [apply calls_only_process_loop|].
  intros e k [= <-]. by destruct e; apply calls_only_emit.
Qed.

Lemma calls_only_connection_begin : calls_only self false (connection_begin c self).
Proof.
  unfold connection_begin.
  destruct (eventHandler c); [by apply calls_only_call|apply calls_only_ret].
Qed.

Lemma calls_only_connection_end : calls_only self true (connection_end c self).
Proof.
  unfold connection_end.
  destruct (eventHandler c); [by apply calls_only_call|apply calls_only_ret].
Qed.

Lemma calls_only_close_input : calls_only self true (close_input c self).
Proof.
  apply calls_only_try_catch; [by apply calls_only_call|].
  intros [] k [= <-]. by apply calls_only_emit.
Qed.

Lemma calls_only_close_output : calls_only self true (close_output c self).
Proof.
  apply calls_only_try_catch; [by apply calls_only_call|].
  intros [] k [= <-]. by apply calls_only_emit.
Qed.

Lemma calls_only_weaken q {A} (m : M A) : calls_only self q m → calls_only self false m.
Proof.
  intros Hm s. destruct (Hm s) as (evs & ? & ? & ?). by exists evs.
Qed.

Lemma calls_only_before_deregister fuel :
  calls_only self false (before_deregister c self fuel).
Proof.
  unfold before_deregister.
  repeat (apply calls_only_bind; [|intros _]);
    eauto using calls_only_connection_begin, calls_only_guarded_loop,
      calls_only_weaken, calls_only_connection_end, calls_only_close_input,
      calls_only_close_output.
Qed.

Lemma calls_only_cleanup :
  calls_only self true (connection_end c self;; close_input c self;; close_output c self).
Proof.
  repeat (apply calls_only_bind; [|intros _]);
    eauto using calls_only_connection_end, calls_only_close_input,
      calls_only_close_output.
Qed.

Lemma deregister_eq s :
  deregister self s
  = (Ret (),
     set_tasks (tasks_ s ∖ {[self]})
       (add_output (Erase self :: notification (tasks_ s ∖ {[self]})) s)).
Proof.
  unfold deregister, notification. destruct s. mstate.
  case_bool_decide; by rewrite <-?(assoc_L (++)).
Qed.

Lemma Task_run_split fuel s :
  Task_run c self fuel s = (before_deregister c self fuel;; deregister self) s.
Proof.
  unfold Task_run, before_deregister. rewrite !bind_eq.
  destruct (connection_begin c self s) as [[[]|e|] s1]; [|done..]. rewrite !bind_eq.
  destruct (guarded_loop c self fuel s1) as [[[]|e|] s2]; [|done..]. rewrite !bind_eq.
  destruct (connection_end c self s2) as [[[]|e|] s3]; [|done..]. rewrite !bind_eq.
  destruct (close_input c self s3) as [[[]|e|] s4]; [|done..]. rewrite !bind_eq.
  by destruct (close_output c self s4) as [[[]|e|] s5].
Qed.

Lemma after_loop_split s :
  after_loop c self s
  = ((connection_end c self;; close_input c self;; close_output c self);;
     deregister self) s.
Proof.
  unfold after_loop. rewrite !bind_eq.
  destruct (connection_end c self s) as [[[]|e|] s3]; [|done..]. rewrite !bind_eq.
  destruct (close_input c self s3) as [[[]|e|] s4]; [|done..]. rewrite !bind_eq.
  by destruct (close_output c self s4) as [[[]|e|] s5].
Qed.

(** A run adds calls and log lines to the history, and then either
    deregisters the task as its last action, or ends before that. *)
Lemma Task_run_cases fuel s :
  ∃ evs, Forall (is_call self) evs ∧
    match Task_run c self fuel s with
    | (Ret _, s') =>
        s' = set_tasks (tasks_ s ∖ {[self]})
               (add_output (evs ++ Erase self :: notification (tasks_ s ∖ {[self]})) s)
    | (_, s') => s' = add_output evs s
    end.
Proof.
  rewrite Task_run_split, bind_eq.
  destruct (calls_only_before_deregister fuel s) as (evs & Hc & _ & Hs).
  exists evs. split; [done|].
  destruct (before_deregister c self fuel s) as [[[]|e|] s1]; simpl in Hs; subst s1;
    [|done..].
  rewrite deregister_eq. by rewrite add_output_add_output.
Qed.

Lemma after_loop_cases s :
  ∃ evs, Forall (is_call self) evs ∧ invocations self evs = 0 ∧
    match after_loop c self s with
    | (Ret _, s') =>
        s' = set_tasks (tasks_ s ∖ {[self]})
               (add_output (evs ++ Erase self :: notification (tasks_ s ∖ {[self]})) s)
    | (Exc _, s') => s' = add_output evs s
    | (Fuel, _) => False
    end.
Proof.
  rewrite after_loop_split, bind_eq.
  destruct (calls_only_cleanup s) as (evs & Hc & Hq & Hs).
  destruct (Hq eq_refl) as [Hq0 Hfuel].
  exists evs. split_and!; [done..|].
  destruct ((connection_end c self;; close_input c self;; close_output c self) s)
    as [[[]|e|] s1]; simpl in Hs; subst s1; [|done..].
  rewrite deregister_eq. by rewrite add_output_add_output.
Qed.

End run.

(** ** Properties of [Task::run] *)

Ltac app_normal :=
  repeat first [rewrite <-app_comm_cons | rewrite <-(assoc_L (++))].

Lemma output_add_output evs s : output (add_output evs s) = output s ++ evs.
Proof. done. Qed.

Lemma output_set_tasks ts s : output (set_tasks ts s) = output s.
Proof. done. Qed.

Lemma tasks_add_output evs s : tasks_ (add_output evs s) = tasks_ s.
Proof. done. Qed.

Lemma tasks_set_tasks ts s : tasks_ (set_tasks ts s) = ts.
Proof. done. Qed.

Lemma last_turn_process_false c self k :
  process c k = Returns false → last_turn c self k = (Ret (), [Process self]).
Proof. unfold last_turn. by intros ->. Qed.

Lemma last_turn_throws c self k e :
  process c k = Throws e ∨ (process c k = Returns true ∧ peek c k = Throws e) →
  (last_turn c self k).1 = Exc e.
Proof. unfold last_turn. by intros [->|[-> ->]]. Qed.

Lemma Task_run_clean c self fuel n s :
  begin_returns c → end_returns c →
  transport_failure_at_most (input_close c) →
  transport_failure_at_most (output_close c) →
  leaves_at c 0 n → n < fuel →
  Task_run c self fuel s
  = (Ret (),
     set_tasks (tasks_ s ∖ {[self]})
       (add_output
          ((begin_events c self ++ turns self n ++ (last_turn c self n).2
            ++ loop_log (last_turn c self n).1 ++ end_events c self
            ++ CloseInput self
               :: close_log "TThreadedServer input close failed: " (input_close c)
            ++ CloseOutput self
               :: close_log "TThreadedServer output close failed: " (output_close c))
           ++ Erase self :: notification (tasks_ s ∖ {[self]})) s)).
Proof.
  intros Hb He Hi Ho Hl Hlt.
  rewrite (Task_run_leaves c self n fuel s Hb Hl Hlt).
  rewrite (after_loop_clean c self _ He Hi Ho).
  destruct s. mstate. do 2 f_equal. by app_normal.
Qed.

Lemma Forall_is_call_turns self n : Forall (is_call self) (turns self n).
Proof. induction n; simpl; repeat constructor; done. Qed.

Lemma Forall_is_call_last_turn c self k : Forall (is_call self) (last_turn c self k).2.
Proof.
  unfold last_turn.
  destruct (process c k) as [[]|e]; [destruct (peek c k) as [[]|e']|..];
    repeat constructor; done.
Qed.

Lemma Forall_is_call_begin_events c self : Forall (is_call self) (begin_events c self).
Proof. unfold begin_events. destruct (eventHandler c); repeat constructor. Qed.

Lemma Forall_is_call_end_events c self : Forall (is_call self) (end_events c self).
Proof. unfold end_events. destruct (eventHandler c); repeat constructor. Qed.

Lemma Forall_is_call_loop_log self r : Forall (is_call self) (loop_log r).
Proof. destruct r; repeat constructor. Qed.

Lemma Forall_is_call_close_log self prefix o : Forall (is_call self) (close_log prefix o).
Proof. destruct o as [|[]]; repeat constructor. Qed.

Ltac Forall_is_call :=
  repeat first
    [ apply Forall_nil
    | apply Forall_is_call_turns
    | apply Forall_is_call_last_turn
    | apply Forall_is_call_begin_events
    | apply Forall_is_call_end_events
    | apply Forall_is_call_loop_log
    | apply Forall_is_call_close_log
    | apply Forall_app; split
    | apply Forall_cons; split; [done|] ].

Lemma not_elem_of_erased (self : Task) (ts : gset Task) : self ∉ ts ∖ {[self]}.
Proof. rewrite elem_of_difference, elem_of_singleton. tauto. Qed.

(** C1 (as amended): when the event handler's calls return and each
    [close()] returns or fails with a [TTransportException], a run that
    leaves its loop (in any turn, in any way) returns, and its last
    action is to deregister itself: the history ends with the [erase] of
    the task (and the [notify] that may follow it), everything before is
    a call or a log line of the task, and the task is not in [tasks_]
    afterwards. *)
Theorem deregistration_is_the_final_action c self fuel n s :
  begin_returns c → end_returns c →
  transport_failure_at_most (input_close c) →
  transport_failure_at_most (output_close c) →
  leaves_at c 0 n → n < fuel →
  ∃ evs,
    Task_run c self fuel s
    = (Ret (),
       set_tasks (tasks_ s ∖ {[self]})
         (add_output (evs ++ Erase self :: notification (tasks_ s ∖ {[self]})) s))
    ∧ Forall (is_call self) evs
    ∧ self ∉ tasks_ (Task_run c self fuel s).2.
Proof.
  intros Hb He Hi Ho Hl Hlt.
  rewrite (Task_run_clean c self fuel n s Hb He Hi Ho Hl Hlt).
  eexists. split_and!; [done| |cbn [snd]; rewrite tasks_set_tasks; apply not_elem_of_erased].
  Forall_is_call.
Qed.

(** An instance: the client drops the connection in the second turn and
    the input channel fails to close; the run still ends by erasing the
    task. *)
Lemma deregistration_is_the_final_action_witness :
  ∃ evs,
    Task_run dropped_connection 0 5 one_task
    = (Ret (),
       set_tasks (tasks_ one_task ∖ {[0]})
         (add_output (evs ++ Erase 0 :: notification (tasks_ one_task ∖ {[0]})) one_task))
    ∧ Forall (is_call 0) evs
    ∧ 0 ∉ tasks_ (Task_run dropped_connection 0 5 one_task).2.
Proof.
  apply (deregistration_is_the_final_action dropped_connection 0 5 1 one_task);
    [reflexivity|reflexivity|exact I|exact I| |lia].
  split; [|reflexivity].
  intros j Hj. assert (j = 0) as -> by lia. reflexivity.
Defined.

(** C1, as stated, fails: the event handler throws from [clientEnd], the
    exception leaves [Task::run], and the task is still in [tasks_]; it
    was never erased. *)
Lemma failing_hook_leaks_the_entry :
  (Task_run failing_hook 0 1 one_task).1 = Exc (TException "hook")
  ∧ elements (tasks_ (Task_run failing_hook 0 1 one_task).2) = [0]
  ∧ output (Task_run failing_hook 0 1 one_task).2 = [ClientBegin 0; Process 0; ClientEnd 0].
Proof. split_and!; vm_compute; reflexivity. Qed.

Lemma invocations_begin_events c self : invocations self (begin_events c self) = 0.
Proof. unfold begin_events. by destruct (eventHandler c). Qed.

Lemma invocations_notification self ts : invocations self (notification ts) = 0.
Proof. unfold notification. by case_bool_decide. Qed.

Lemma leaves_at_process_false c n :
  leaves_at c 0 n → process c 0 = Returns false → n = 0.
Proof.
  intros [Hbefore _] Hp. destruct n as [|n]; [done|].
  specialize (Hbefore 0 ltac:(lia)). unfold continues in Hbefore; simpl in Hbefore.
  by rewrite Hp in Hbefore.
Qed.

Lemma leaves_at_unique c n n' : leaves_at c 0 n → leaves_at c 0 n' → n = n'.
Proof.
  intros [Hb Hn] [Hb' Hn'].
  destruct (decide (n < n')) as [Hlt|]; [specialize (Hb' n Hlt); congruence|].
  destruct (decide (n' < n)) as [Hlt|]; [specialize (Hb n' Hlt); congruence|]. lia.
Qed.

Lemma Task_run_cut_off_eq c self fuel s :
  begin_returns c → (∀ j, j < fuel → continues c j = true) →
  Task_run c self fuel s
  = (Fuel, add_output (begin_events c self ++ turns self fuel) s).
Proof.
  intros Hb Hall. unfold Task_run, connection_begin.
  unfold begin_returns, begin_events in *.
  destruct (eventHandler c) as [h|]; [rewrite Hb|]; munfold;
    by rewrite (guarded_loop_cut_off c self fuel _ Hall), ?add_output_add_output.
Qed.

(** C4 (as amended): a run adds events to the history.  Among them the
    processor is called at most [fuel] times, the number of turns the
    run is given, and at least once when [clientBegin] returns; and
    after its call number [j] it is called a next time exactly when that
    call returned [true] and the [peek()] after it returned [true] too.
    When the loop is left in its turn [n] and the run is given more
    than [n] turns, the run is not cut off: it calls the processor
    [n + 1] times, with a [peek()] after each call that returned [true],
    and not again after the loop.  A processor that returns [false] from
    its first call is called just that once; when moreover the event
    handler's calls return and each [close()] returns or fails with a
    [TTransportException], the run goes on to close both channels and to
    deregister the task, and returns. *)
Theorem processor_is_invoked_again_iff_continue_and_peek c self fuel s :
  ∃ evs,
    output (Task_run c self fuel s).2 = output s ++ evs
    ∧ invocations self evs ≤ fuel
    ∧ (begin_returns c → 0 < fuel → 1 ≤ invocations self evs)
    ∧ (∀ j, j < invocations self evs → S j < fuel →
         (S j < invocations self evs
          ↔ process c j = Returns true ∧ peek c j = Returns true))
    ∧ (∀ n, begin_returns c → leaves_at c 0 n → n < fuel →
         (Task_run c self fuel s).1 ≠ Fuel
         ∧ invocations self evs = S n
         ∧ ∃ rest,
             evs = begin_events c self ++ turns self n ++ (last_turn c self n).2
                   ++ loop_log (last_turn c self n).1 ++ rest
             ∧ invocations self rest = 0)
    ∧ (0 < fuel → process c 0 = Returns false →
       (Task_run c self fuel s).1 ≠ Fuel
       ∧ invocations self evs ≤ 1
       ∧ (begin_returns c → end_returns c →
          transport_failure_at_most (input_close c) →
          transport_failure_at_most (output_close c) →
          (Task_run c self fuel s).1 = Ret ()
          ∧ evs = begin_events c self ++ Process self :: end_events c self
                  ++ CloseInput self
                     :: close_log "TThreadedServer input close failed: " (input_close c)
                  ++ CloseOutput self
                     :: close_log "TThreadedServer output close failed: " (output_close c)
                  ++ Erase self :: notification (tasks_ s ∖ {[self]})
          ∧ self ∉ tasks_ (Task_run c self fuel s).2)).
Proof.
  destruct (eventHandler c) as [[[[]|e] he]|] eqn:Hh.
  2:{ (* [clientBegin] throws *)
    rewrite (Task_run_begin_throws c self _ e fuel s Hh eq_refl).
    assert (¬ begin_returns c) as Hnb by (unfold begin_returns; by rewrite Hh).
    exists [ClientBegin self]. split_and!; [done|simpl; lia|done| |done|].
    - simpl. lia.
    - intros _ _. split_and!; [done|simpl; lia|done]. }
  all: assert (begin_returns c) as Hb by (unfold begin_returns; by rewrite Hh).
  all: destruct (leaves_or_not c fuel 0) as [(n & Hlt & Hl)|Hall].
  1,3: (* the loop is left in turn [n] *)
    rewrite (Task_run_leaves c self n fuel s Hb Hl Hlt);
    set (pre := begin_events c self ++ _);
    destruct (after_loop_cases c self (add_output pre s)) as (evs2 & _ & Hq & Hal);
    assert (invocations self pre = S n) as Hpre
      by (unfold pre; rewrite !invocations_app, invocations_begin_events,
            invocations_turns, invocations_last_turn, invocations_loop_log; lia).
  1,2: assert (∀ evs, invocations self evs = S n →
         ∀ j, j < invocations self evs → S j < fuel →
             (S j < invocations self evs
              ↔ process c j = Returns true ∧ peek c j = Returns true)) as Hiff.
  1,3: intros evs -> j Hj _;
       rewrite <-continues_true; destruct Hl as [Hbefore Hn]; simpl in *;
       split; [intros ?; apply Hbefore; lia|];
       intros Hc; destruct (decide (j = n)) as [->|]; [congruence|lia].
  1,2: destruct (after_loop c self (add_output pre s)) as [[[]|e|] s'] eqn:Hrun;
       [| |done]; subst s'.
  1,3: (* the run returns *)
       exists (pre ++ evs2 ++ Erase self :: notification (tasks_ s ∖ {[self]}));
       assert (invocations self
                 (pre ++ evs2 ++ Erase self :: notification (tasks_ s ∖ {[self]})) = S n
               ∧ invocations self
                   (evs2 ++ Erase self :: notification (tasks_ s ∖ {[self]})) = 0)
         as [Hinv Hrest]
         by (rewrite !invocations_app, Hpre, Hq; simpl;
             rewrite ?invocations_notification; lia).
  3,4: (* an exception leaves the run after the loop *)
       exists (pre ++ evs2);
       assert (invocations self (pre ++ evs2) = S n ∧ invocations self evs2 = 0)
         as [Hinv Hrest] by (rewrite !invocations_app, Hpre, Hq; lia).
  1-4: cbn [fst snd];
       rewrite ?output_set_tasks, ?output_add_output, ?tasks_add_output,
         ?tasks_set_tasks;
       (split_and!;
        [by app_normal|lia|lia|by apply Hiff
        |intros n' _ Hl' _; pose proof (leaves_at_unique c n n' Hl Hl') as <-;
         (split_and!; [done|done|]); eexists; (split; [|exact Hrest]);
         unfold pre; by app_normal
        |intros _ Hp]).
  1-4: pose proof (leaves_at_process_false c n Hl Hp) as ->;
       (split_and!; [done|lia|]);
       intros _ He Hi Ho;
       pose proof (Task_run_clean c self fuel 0 s Hb He Hi Ho Hl Hlt) as Hclean;
       rewrite (Task_run_leaves c self 0 fuel s Hb Hl Hlt) in Hclean;
       fold pre in Hclean; rewrite Hrun in Hclean; try done.
  1,2: injection Hclean as Hclean;
       rewrite <-(assoc_L (++)) in Hclean; apply (inj (app _)) in Hclean;
       (split_and!; [done| |apply not_elem_of_erased]);
       rewrite Hclean, (last_turn_process_false c self 0 Hp); simpl;
       unfold begin_events, end_events; rewrite Hh; by app_normal.
  (* the loop is cut off *)
  all: rewrite (Task_run_cut_off_eq c self fuel s Hb Hall);
       exists (begin_events c self ++ turns self fuel);
       assert (invocations self (begin_events c self ++ turns self fuel) = fuel) as Hinv
         by (rewrite invocations_app, invocations_begin_events, invocations_turns; lia);
       cbn [fst snd]; rewrite output_add_output, Hinv;
       (split_and!; [done|lia|lia| | |]).
  1,4: intros j Hj Hj'; rewrite <-continues_true;
       split; [intros _; apply Hall; lia|done].
  1,3: intros n _ [_ Hn] Hlt; specialize (Hall n Hlt); simpl in *; congruence.
  all: intros Hfuel Hp; specialize (Hall 0 Hfuel);
       unfold continues in Hall; simpl in Hall; by rewrite Hp in Hall.
Qed.

(** An instance: the client sends one request and closes. *)
Lemma processor_is_invoked_again_iff_continue_and_peek_witness :
  ∃ evs,
    output (Task_run one_request 0 1 one_task).2 = output one_task ++ evs
    ∧ invocations 0 evs ≤ 1
    ∧ (Task_run one_request 0 1 one_task).1 = Ret ()
    ∧ evs = [Process 0; CloseInput 0; CloseOutput 0; Erase 0; Notify].
Proof.
  destruct (processor_is_invoked_again_iff_continue_and_peek one_request 0 1 one_task)
    as (evs & Hout & _ & _ & _ & _ & Hfirst).
  destruct (Hfirst ltac:(lia) eq_refl) as (_ & Hle & Hclean).
  destruct (Hclean I I I I) as (Hret & Hevs & _).
  exists evs. split_and!; [done..|]. rewrite Hevs. vm_compute. reflexivity.
Defined.

(** C4, as stated, fails in its last part: the processor returns
    [false] from its first call and is not called again, but the event
    handler then throws from [clientEnd]; the run ends there, with no
    channel closed and the task not deregistered. *)
Lemma first_call_false_and_no_cleanup :
  process failing_hook 0 = Returns false
  ∧ Task_run failing_hook 0 5 one_task
    = (Exc (TException "hook"),
       add_output [ClientBegin 0; Process 0; ClientEnd 0] one_task)
  ∧ elements (tasks_ (Task_run failing_hook 0 5 one_task).2) = [0].
Proof. by vm_compute. Qed.

Lemma guarded_loop_never_throws c self fuel s e :
  (guarded_loop c self fuel s).1 ≠ Exc e.
Proof.
  destruct (leaves_or_not c fuel 0) as [(n & Hlt & Hl)|Hall].
  - by rewrite (guarded_loop_leaves c self n fuel s Hl Hlt).
  - by rewrite (guarded_loop_cut_off c self fuel s Hall).
Qed.

Lemma extends_output_bind {A B} (m : M A) (k : A → M B) :
  extends_output m → (∀ a, extends_output (k a)) → extends_output (m ≫= k).
Proof.
  intros Hm Hk s. destruct (Hm s) as (evs1 & Hs1). rewrite bind_eq.
  destruct (m s) as [[a|e|] s1]; simpl in *; [|by exists evs1..].
  destruct (Hk a s1) as (evs2 & ->). exists (evs1 ++ evs2).
  by rewrite Hs1, (assoc_L (++)).
Qed.

Lemma extends_output_calls_only self q {A} (m : M A) :
  calls_only self q m → extends_output m.
Proof. intros Hm s. destruct (Hm s) as (evs & _ & _ & ->). by exists evs. Qed.

(** C6: no exception leaves the [try] statement around the loop.  When
    the processor or [peek()] throws [e] in turn [n], the statement
    writes the line for the kind of [e] ([loop_message]) and completes;
    however the loop was left, the next event of the run is the call of
    [clientEnd] when an event handler is installed.  The step of the
    machine in which a task runs changes neither where [serve()] is nor
    the status of any other thread. *)
Theorem loop_errors_stay_in_the_task c self fuel s :
  (∀ e, (guarded_loop c self fuel s).1 ≠ Exc e)
  ∧ (∀ n e, leaves_at c 0 n → n < fuel →
       process c n = Throws e ∨ (process c n = Returns true ∧ peek c n = Throws e) →
       guarded_loop c self fuel s
       = (Ret (),
          add_output (turns self n ++ (last_turn c self n).2
                        ++ [GlobalOutput (loop_message e)]) s))
  ∧ (∀ n, leaves_at c 0 n → n < fuel → begin_returns c →
       ∃ post,
         output (Task_run c self fuel s).2
         = output s ++ begin_events c self ++ turns self n ++ (last_turn c self n).2
           ++ loop_log (last_turn c self n).1 ++ end_events c self ++ post)
  ∧ (∀ s', step (AWorker self c fuel) s = Some s' →
       pc s' = pc s ∧ stop_ s' = stop_ s
       ∧ ∀ t, t ≠ self → threads s' !! t = threads s !! t).
Proof.
  split_and!.
  - apply guarded_loop_never_throws.
  - intros n e Hl Hlt He.
    rewrite (guarded_loop_leaves c self n fuel s Hl Hlt).
    by rewrite (last_turn_throws c self n e He).
  - intros n Hl Hlt Hb.
    rewrite (Task_run_leaves c self n fuel s Hb Hl Hlt).
    set (pre := begin_events c self ++ _).
    unfold after_loop. rewrite bind_eq.
    assert (∃ r, connection_end c self (add_output pre s)
                 = (r, add_output (end_events c self) (add_output pre s))
                 ∧ r ≠ Fuel) as (r & Hend & Hr).
    { unfold connection_end, end_events.
      destruct (eventHandler c) as [[hb [[]|e]]|]; munfold; eexists;
        (split; [cbn [clientEnd]; rewrite ?add_output_nil; reflexivity|done]). }
    rewrite Hend. destruct r as [[]|e|]; [|exists []|done].
    + set (rest := close_input c self;; _).
      assert (extends_output rest) as Hrest.
      { apply extends_output_bind;
          [apply (extends_output_calls_only self true), calls_only_close_input|intros _].
        apply extends_output_bind;
          [apply (extends_output_calls_only self true), calls_only_close_output|intros _].
        intros s0. rewrite deregister_eq. by eexists. }
      destruct (Hrest (add_output (end_events c self) (add_output pre s))) as (post & ->).
      exists post. rewrite !output_add_output. unfold pre. by app_normal.
    + cbn [snd]. rewrite !output_add_output, app_nil_r. unfold pre. by app_normal.
  - intros s'. unfold step. destruct (threads s !! self) as [[]|]; try done.
    destruct (Task_run_cases c self fuel s) as (evs & _ & Hrun).
    destruct (Task_run c self fuel s) as [[[]|e|] s1]; intros [= <-]; subst s1;
      (split_and!; [done..|]); intros t Ht; by apply lookup_insert_ne.
Qed.

(** An instance: the processor throws a [TTransportException] in the
    second turn. *)
Lemma loop_errors_stay_in_the_task_witness :
  guarded_loop dropped_connection 0 5 one_task
  = (Ret (),
     add_output [Process 0; Peek 0; Process 0;
                 GlobalOutput "TThreadedServer client died: No more data to read."]
       one_task).
Proof.
  destruct (loop_errors_stay_in_the_task dropped_connection 0 5 one_task)
    as (_ & Hlogged & _).
  rewrite (Hlogged 1 (TTransportException (OTHER_TYPE 4) "No more data to read."));
    [reflexivity| |lia|by left].
  split; [|reflexivity].
  intros j Hj. assert (j = 0) as -> by lia. reflexivity.
Defined.

Lemma after_loop_attempts_output_close c self s :
  end_returns c →
  transport_failure_at_most (input_close c) →
  ∃ post,
    output (after_loop c self s).2
    = output s ++ end_events c self
      ++ CloseInput self
         :: close_log "TThreadedServer input close failed: " (input_close c)
      ++ CloseOutput self :: post.
Proof.
  unfold end_returns, end_events, after_loop, connection_end, close_input,
    close_output, deregister, close_catch, close_log.
  intros He Hi. destruct s.
  destruct (eventHandler c) as [h|]; [rewrite He|];
    destruct (input_close c) as [[]|[]]; try done;
    destruct (output_close c) as [[]|[]];
    mstate; try case_bool_decide; app_normal; eexists; reflexivity.
Qed.

(** C7 (as amended): in a run that gets as far as the cleanup, when
    closing the input channel returns or fails with a
    [TTransportException], the failure is logged and closing the output
    channel is attempted next, whatever that call then does; when closing
    the output channel in its turn returns or fails with a
    [TTransportException], that failure is logged as well, no exception
    leaves the run, and the task deregisters. *)
Theorem transport_close_failures_are_isolated c self fuel n s :
  begin_returns c → end_returns c → leaves_at c 0 n → n < fuel →
  transport_failure_at_most (input_close c) →
  ∃ pre,
    Forall (is_call self) pre
    ∧ (∃ post,
         output (Task_run c self fuel s).2
         = output s ++ pre
           ++ CloseInput self
              :: close_log "TThreadedServer input close failed: " (input_close c)
           ++ CloseOutput self :: post)
    ∧ (transport_failure_at_most (output_close c) →
       Task_run c self fuel s
       = (Ret (),
          set_tasks (tasks_ s ∖ {[self]})
            (add_output
               (pre
                ++ CloseInput self
                   :: close_log "TThreadedServer input close failed: " (input_close c)
                ++ CloseOutput self
                   :: close_log "TThreadedServer output close failed: " (output_close c)
                ++ Erase self :: notification (tasks_ s ∖ {[self]})) s))).
Proof.
  intros Hb He Hl Hlt Hi.
  exists (begin_events c self ++ turns self n ++ (last_turn c self n).2
          ++ loop_log (last_turn c self n).1 ++ end_events c self).
  split_and!.
  - Forall_is_call.
  - rewrite (Task_run_leaves c self n fuel s Hb Hl Hlt).
    destruct (after_loop_attempts_output_close c self (add_output
      (begin_events c self ++ turns self n ++ (last_turn c self n).2
       ++ loop_log (last_turn c self n).1) s) He Hi) as (post & ->).
    exists post. rewrite output_add_output. by app_normal.
  - intros Ho. rewrite (Task_run_clean c self fuel n s Hb He Hi Ho Hl Hlt).
    do 3 f_equal. by app_normal.
Qed.

(** An instance: the input channel fails to close and the output
    channel closes. *)
Lemma transport_close_failures_are_isolated_witness :
  ∃ pre,
    Forall (is_call 0) pre
    ∧ (∃ post,
         output (Task_run dropped_connection 0 5 one_task).2
         = output one_task ++ pre
           ++ CloseInput 0
              :: close_log "TThreadedServer input close failed: "
                   (input_close dropped_connection)
           ++ CloseOutput 0 :: post)
    ∧ (transport_failure_at_most (output_close dropped_connection) →
       Task_run dropped_connection 0 5 one_task
       = (Ret (),
          set_tasks (tasks_ one_task ∖ {[0]})
            (add_output
               (pre
                ++ CloseInput 0
                   :: close_log "TThreadedServer input close failed: "
                        (input_close dropped_connection)
                ++ CloseOutput 0
                   :: close_log "TThreadedServer output close failed: "
                        (output_close dropped_connection)
                ++ Erase 0 :: notification (tasks_ one_task ∖ {[0]})) one_task))).
Proof.
  apply (transport_close_failures_are_isolated dropped_connection 0 5 1 one_task);
    [reflexivity|reflexivity| |lia|exact I].
  split; [|reflexivity].
  intros j Hj. assert (j = 0) as -> by lia. reflexivity.
Defined.

(** C7, as stated, fails: closing the input channel throws an exception
    that is not a [TTransportException]; it leaves [Task::run], nothing
    is logged, and closing the output channel is not attempted. *)
Lemma other_close_failure_escapes :
  Task_run failing_close 0 1 one_task
  = (Exc (TException "close"), add_output [Process 0; CloseInput 0] one_task).
Proof. reflexivity. Qed.

(** C9: the block under the monitor removes the task from [tasks_] and
    then notifies exactly when the set is empty: a removal that leaves
    another task in the set does not notify, and for a task that was in
    the set the notification says that it was the last one.  In a run,
    [notify] is called only there: the history of a run has a [Notify]
    exactly when the run returned and left [tasks_] empty. *)
Theorem notify_iff_removal_empties_the_set c self fuel s :
  (∃ evs,
     deregister self s
     = (Ret (), set_tasks (tasks_ s ∖ {[self]}) (add_output (Erase self :: evs) s))
     ∧ (Notify ∈ evs ↔ tasks_ s ∖ {[self]} = ∅)
     ∧ (tasks_ s ∖ {[self]} ≠ ∅ → evs = [])
     ∧ (self ∈ tasks_ s → (Notify ∈ evs ↔ tasks_ s = {[self]})))
  ∧ (∃ evs,
       output (Task_run c self fuel s).2 = output s ++ evs
       ∧ (Notify ∈ evs
          ↔ (Task_run c self fuel s).1 = Ret ()
            ∧ tasks_ (Task_run c self fuel s).2 = ∅)).
Proof.
  assert (∀ ts : gset Task, Notify ∈ notification ts ↔ ts = ∅) as Hnotify.
  { intros ts. unfold notification. case_bool_decide as Hts.
    - split; [done|]. intros _. constructor.
    - split; [by intros ?%elem_of_nil|done]. }
  split.
  - exists (notification (tasks_ s ∖ {[self]})). split_and!.
    + apply deregister_eq.
    + apply Hnotify.
    + unfold notification. intros ?. by rewrite bool_decide_false.
    + intros Hin. rewrite Hnotify. split.
      * intros Hempty. apply set_eq. intros t. rewrite elem_of_singleton.
        split; [|by intros ->].
        intros Ht. destruct (decide (t = self)) as [|Hne]; [done|].
        assert (t ∈ tasks_ s ∖ {[self]}) as Hleft
          by (apply elem_of_difference; by rewrite elem_of_singleton).
        rewrite Hempty in Hleft. by apply not_elem_of_empty in Hleft.
      * intros ->. apply set_eq. intros t.
        rewrite elem_of_difference, elem_of_singleton. split; [tauto|].
        by intros ?%not_elem_of_empty.
  - destruct (Task_run_cases c self fuel s) as (evs & Hc & Hrun).
    assert (Notify ∉ evs) as Hevs.
    { intros Hin. by apply (proj1 (Forall_forall _ _) Hc) in Hin. }
    destruct (Task_run c self fuel s) as [[[]|e|] s']; subst s'; cbn [fst snd].
    + eexists. rewrite output_set_tasks, output_add_output, tasks_set_tasks.
      split; [done|]. rewrite elem_of_app, elem_of_cons, Hnotify.
      split; [intros [?|[?|?]]; done|intros [_ ?]; auto].
    + exists evs. split; [done|]. split; [done|by intros [? _]].
    + exists evs. split; [done|]. split; [done|by intros [? _]].
Qed.

Ltac serve_unfold :=
  cbv beta iota delta
    [serve serve_listen serve_preServe serve_try_accept serve_start
     close_if_set close_created serve_catch guarded next_pc shutdown_catch
     serve_close_listener serve_join new_Task serve_locals stop].

(** Case analysis on the outcome a computation is waiting for. *)
Ltac stuck_in H :=
  match type of H with
  | context [match ?x with _ => _ end] =>
      lazymatch x with
      | context [match _ with _ => _ end] => fail
      | _ => destruct x
      end
  end.

Ltac run_in H := repeat (mstate in H; try stuck_in H).

(** The same, keeping what the outcome was. *)
Ltac stuck_eqn_in H :=
  match type of H with
  | context [match ?x with _ => _ end] =>
      lazymatch x with
      | context [match _ with _ => _ end] => fail
      | _ => destruct x eqn:?
      end
  end.

Ltac run_eqn_in H := repeat (mstate in H; try stuck_eqn_in H).

Lemma step_serve_effect env s s' :
  step (AServe env) s = Some s' → serve_effect s s'.
Proof.
  destruct s as [ts st out th cl it ot ip op p]. unfold step.
  destruct p; serve_unfold; intros H.
  all: run_eqn_in H; simplify_eq.
  all: first
    [ by apply effect_none; cbn
    | by eapply effect_start; cbn
    | eapply effect_insert; cbn; first [done|congruence] ].
Qed.

(** A step in which thread [t] runs [Task::run]. *)
Lemma step_worker t c fuel s s' :
  step (AWorker t c fuel) s = Some s' →
  threads s !! t = Some Running
  ∧ ∃ evs,
      (s' = set_thread t Returned
              (set_tasks (tasks_ s ∖ {[t]})
                 (add_output (evs ++ Erase t :: notification (tasks_ s ∖ {[t]})) s)))
      ∨ (∃ e, s' = set_thread t (Aborted e) (add_output evs s)).
Proof.
  unfold step. destruct (threads s !! t) as [[]|]; try done.
  destruct (Task_run_cases c t fuel s) as (evs & _ & Hrun).
  destruct (Task_run c t fuel s) as [[[]|e|] s1]; intros [= <-]; subst s1;
    (split; [done|]); exists evs; eauto.
Qed.

Lemma step_consistent a s s' : consistent s → step a s = Some s' → consistent s'.
Proof.
  intros (Hrun & Hret & Hab & Hst) Hstep. destruct a as [env|t c fuel|].
  - destruct (step_serve_effect env s s' Hstep)
      as [Hts Hth Hpc|t Hpc Hpc' Hlive Hts Hth Hit Hot Hcl|t Hpc Hpc' Hts Hth].
    + unfold consistent. rewrite Hts, Hth. split_and!; try done.
      intros t Ht. by destruct (Hpc t).
    + unfold consistent. rewrite Hts, Hth, Hpc'. split_and!.
      * intros t' [_ Ht']%lookup_delete_Some. apply elem_of_union. right. by apply Hrun.
      * intros t' [Hne Ht']%lookup_delete_Some
          [->%elem_of_singleton|Hin]%elem_of_union; [done|by apply (Hret t')].
      * intros t' e [_ Ht']%lookup_delete_Some. apply elem_of_union. right.
        by apply (Hab t' e).
      * intros t' [= <-]. split_and!; try done.
        -- apply elem_of_union. left. by apply elem_of_singleton.
        -- by apply lookup_delete_eq.
    + destruct (Hst t Hpc) as (Hin & Hnone & _).
      unfold consistent. rewrite Hts, Hth, Hpc'. split_and!; try done.
      * intros t'. rewrite lookup_insert. case_decide; [by subst|apply Hrun].
      * intros t'. rewrite lookup_insert. case_decide; [done|apply Hret].
      * intros t' e. rewrite lookup_insert. case_decide; [done|apply Hab].
  - destruct (step_worker t c fuel s s' Hstep) as (Ht & evs & [->|[e ->]]);
      unfold consistent; cbn -[difference]; split_and!; try done.
    + intros t'. rewrite lookup_insert. case_decide; [done|].
      intros Ht'. apply elem_of_difference. split; [by apply Hrun|].
      by rewrite elem_of_singleton.
    + intros t'. rewrite lookup_insert. case_decide.
      * subst. intros _. apply not_elem_of_erased.
      * intros Ht' [Hin _]%elem_of_difference. by apply (Hret t').
    + intros t' e. rewrite lookup_insert. case_decide; [done|].
      intros Ht'. apply elem_of_difference. split; [by apply (Hab t' e)|].
      by rewrite elem_of_singleton.
    + intros t' Hpc. destruct (Hst t' Hpc) as (Hin & Hnone & ? & ? & ?). split_and!; try done.
      * apply elem_of_difference. split; [done|]. rewrite elem_of_singleton.
        intros ->. by rewrite Ht in Hnone.
      * rewrite lookup_insert_ne; [done|]. intros ->. by rewrite Ht in Hnone.
    + intros t'. rewrite lookup_insert. case_decide; [done|apply Hrun].
    + intros t'. rewrite lookup_insert. case_decide; [done|apply Hret].
    + intros t' e'. rewrite lookup_insert. case_decide; [|apply Hab].
      subst. intros _. by apply Hrun.
    + intros t' Hpc. destruct (Hst t' Hpc) as (Hin & Hnone & ? & ? & ?). split_and!; try done.
      rewrite lookup_insert_ne; [done|]. intros ->. by rewrite Ht in Hnone.
  - injection Hstep as <-. done.
Qed.

Lemma exec_consistent l : ∀ s s', consistent s → exec l s = Some s' → consistent s'.
Proof.
  induction l as [|a l IH]; intros s s' Hs; simpl.
  - by intros [= <-].
  - destruct (step a s) as [s1|] eqn:Hstep; [|done].
    apply IH. by apply (step_consistent a s).
Qed.

Lemma initial_consistent : consistent initial.
Proof.
  unfold consistent, initial; cbn.
  split_and!; intros t; rewrite ?lookup_empty; try done.
  all: first [by intros ?%not_elem_of_empty | by intros [? ?]].
Qed.

Lemma reachable_consistent s : reachable s → consistent s.
Proof.
  intros [l Hl]. apply (exec_consistent l initial s); [apply initial_consistent|done].
Qed.

(** ** The registry and the threads *)

(** One connection, from [listen()] to the return of [serve()]. *)
Example one_connection_served :
  (λ s, (pc s, stop_ s, elements (tasks_ s), threads s !! 0, output s))
    <$> exec served_and_stopped initial
  = Some (Done, false, [], Some Returned,
          [Listen; Accept; GetInputTransport; GetOutputTransport; GetInputProtocol;
           GetOutputProtocol; NewThread 0; Insert 0; Start 0; CloseServerTransport;
           Wait; Process 0; CloseInput 0; CloseOutput 0; Erase 0; Notify]).
Proof. vm_compute. reflexivity. Qed.




(** ** The accept loop *)

(** C3 (as amended): when [accept()] fails with a [TTransportException],
    the loop goes on to its next test of the stop flag, and nothing but
    the history changes.  With the stop flag clear the failure is logged.
    With the stop flag set it is passed over in silence when the
    exception has type [INTERRUPTED], and is logged all the same when it
    has any other type. *)
Theorem accept_failure_is_logged_unless_interrupted env s ty msg :
  pc s = InTry →
  accept env = Throws (TTransportException ty msg) →
  ∃ s',
    step (AServe env) s = Some s'
    ∧ pc s' = LoopHead
    ∧ tasks_ s' = tasks_ s ∧ threads s' = threads s ∧ stop_ s' = stop_ s
    ∧ (stop_ s = false →
       output s'
       = output s
         ++ [Accept;
             GlobalOutput ("TThreadedServer: TServerTransport died on accept: " +:+ msg)])
    ∧ (stop_ s = true → ty = INTERRUPTED → output s' = output s ++ [Accept])
    ∧ (stop_ s = true → ty ≠ INTERRUPTED →
       output s'
       = output s
         ++ [Accept;
             GlobalOutput ("TThreadedServer: TServerTransport died on accept: " +:+ msg)]).
Proof.
  intros Hpc Haccept. destruct s as [ts st out th cl it ot ip op p].
  cbn in Hpc. subst p. unfold step. serve_unfold. mstate. rewrite Haccept.
  destruct st, ty; mstate; eexists; (split; [reflexivity|]); mstate;
    split_and!; try done; intros; by app_normal.
Qed.

(** An instance: [accept()] fails while nobody has called [stop()]. *)
Lemma accept_failure_is_logged_unless_interrupted_witness :
  ∃ s',
    step (AServe listener_died) (state_after [AServe well_behaved; AServe well_behaved])
    = Some s'
    ∧ pc s' = LoopHead
    ∧ output s'
      = [Listen; Accept;
         GlobalOutput "TThreadedServer: TServerTransport died on accept: accept()"].
Proof.
  destruct (accept_failure_is_logged_unless_interrupted listener_died
              (state_after [AServe well_behaved; AServe well_behaved])
              (OTHER_TYPE 0) "accept()")
    as (s' & Hstep & Hpc & _ & _ & _ & Hlog & _); [reflexivity..|].
  exists s'. split_and!; [done..|]. by rewrite Hlog.
Defined.

(** C3, as stated, fails: [stop()] has been called, so the stop flag is
    set when [accept()] fails, but the exception is not of type
    [INTERRUPTED], and the failure is logged. *)
Lemma accept_failure_after_stop_is_logged :
  stop_ (state_after stopped_in_accept) = true
  ∧ pc (state_after stopped_in_accept) = InTry
  ∧ output <$> step (AServe listener_died) (state_after stopped_in_accept)
    = Some [Listen; Accept;
            GlobalOutput "TThreadedServer: TServerTransport died on accept: accept()"].
Proof. split_and!; vm_compute; reflexivity. Qed.

Lemma guarded_StdString env {A} (m : M A) s s1 str :
  m s = (Exc (StdString str), s1) → closes_return env →
  guarded env m s
  = (Ret (inr Break),
     add_output
       (handler_closes s1
        ++ [GlobalOutput ("TThreadedServer: Unknown exception: " +:+ str)]) s1).
Proof.
  intros Hm (Hi & Ho & Hc). unfold guarded, try_catch. rewrite bind_eq, Hm.
  destruct s1 as [ts st out th [cl|] [it|] [ot|] ip op p];
    serve_unfold; mstate; rewrite ?Hi, ?Ho, ?Hc; mstate;
    do 2 f_equal; by app_normal.
Qed.

(** C5 (as amended): when a part of the [try] block throws a
    [std::string] and the closes of the [catch] clause return, the
    clause logs the string and the loop is left.  What follows depends on
    the stop flag alone: with the flag clear [serve()] returns at once,
    without closing the listening transport, waiting for the tasks or
    touching the flag; with the flag set it closes the listening
    transport and goes on to wait for the tasks, as after any other exit
    from the loop. *)
Theorem unknown_exception_leaves_the_loop env s :
  (pc s = InTry → closes_return env →
   ∀ str s1, serve_try_accept env s = (Exc (StdString str), s1) →
     step (AServe env) s
     = Some (set_pc AfterLoop
               (add_output
                  (handler_closes s1
                   ++ [GlobalOutput ("TThreadedServer: Unknown exception: " +:+ str)])
                  s1)))
  ∧ (∀ t, pc s = Starting t → closes_return env →
     ∀ str, start env = Throws (StdString str) →
       step (AServe env) s
       = Some (set_pc AfterLoop
                 (add_output
                    (Start t :: handler_closes s
                     ++ [GlobalOutput ("TThreadedServer: Unknown exception: " +:+ str)])
                    s)))
  ∧ (pc s = AfterLoop → stop_ s = false →
     step (AServe env) s = Some (set_pc Done s))
  ∧ (pc s = AfterLoop → stop_ s = true → close_serverTransport env = Returns () →
     step (AServe env) s = Some (set_pc Drain (add_output [CloseServerTransport] s))).
Proof.
  split_and!.
  - intros Hpc Hcl str s1 Htry.
    pose proof (guarded_StdString env _ s s1 str Htry Hcl) as Hg.
    unfold step. rewrite Hpc. cbn [serve]. rewrite bind_eq, Hg. done.
  - intros t Hpc Hcl str Hstart.
    assert (serve_start env t s = (Exc (StdString str), add_output [Start t] s)) as Htry.
    { unfold serve_start. rewrite Hstart. by mstate. }
    pose proof (guarded_StdString env _ s _ str Htry Hcl) as Hg.
    unfold step. rewrite Hpc. cbn [serve]. rewrite bind_eq, Hg.
    by rewrite add_output_add_output.
  - intros Hpc Hstop. destruct s as [ts st out th cl it ot ip op p].
    cbn in Hpc, Hstop. subst. reflexivity.
  - intros Hpc Hstop Hclose. destruct s as [ts st out th cl it ot ip op p].
    cbn in Hpc, Hstop. subst. unfold step. serve_unfold. mstate. rewrite Hclose.
    reflexivity.
Qed.

(** An instance: [accept()] throws a [std::string] while nobody has
    called [stop()]; [serve()] logs and returns. *)
Lemma unknown_exception_leaves_the_loop_witness :
  (λ s, (pc s, stop_ s, output s))
    <$> exec [AServe unknown_failure; AServe well_behaved]
          (state_after [AServe well_behaved; AServe well_behaved])
  = Some (Done, false,
          [Listen; Accept; GlobalOutput "TThreadedServer: Unknown exception: boom"]).
Proof.
  destruct (unknown_exception_leaves_the_loop unknown_failure
              (state_after [AServe well_behaved; AServe well_behaved]))
    as (Hbreak & _ & _ & _).
  cbn [exec]. erewrite Hbreak; [|reflexivity|split_and!; reflexivity|reflexivity].
  match goal with |- context [step (AServe well_behaved) ?s1] =>
    destruct (unknown_exception_leaves_the_loop well_behaved s1)
      as (_ & _ & Hreturn & _)
  end.
  rewrite Hreturn; [|reflexivity..]. vm_compute. reflexivity.
Defined.

(** C5, as stated, fails: [stop()] is called while [serve()] is in
    [accept()], and [accept()] then throws a [std::string]; the string is
    logged and the loop is left, and [serve()] closes the listening
    transport, waits for the tasks and clears the stop flag. *)
Lemma unknown_exception_after_stop_shuts_down :
  (λ s, (pc s, stop_ s, output s))
    <$> exec (stopped_in_accept
              ++ [AServe unknown_failure; AServe well_behaved; AServe well_behaved;
                  AServe well_behaved]) initial
  = Some (Done, false,
          [Listen; Accept; GlobalOutput "TThreadedServer: Unknown exception: boom";
           CloseServerTransport]).
Proof. vm_compute. reflexivity. Qed.

(** C8 (as amended): with the stop flag set, the test at the head of the
    loop leaves the loop, and after the loop [serve()] closes the
    listening transport; when that call returns or fails with a
    [TException] the failure is logged and [serve()] goes on to wait for
    the tasks.  It stays there, calling [wait()], as long as [tasks_] is
    not empty and [wait()] returns, and moves on when [tasks_] is empty
    or when [wait()] fails with a [TException], which is logged.  It then
    clears the stop flag and returns.  With no task registered these are
    four steps in a row, and a [serve()] called again then listens and
    enters its loop. *)
Theorem shutdown_closes_drains_and_resets env s :
  (pc s = LoopHead → stop_ s = true → step (AServe env) s = Some (set_pc AfterLoop s))
  ∧ (pc s = AfterLoop → stop_ s = true →
     thrift_failure_at_most (close_serverTransport env) →
     step (AServe env) s
     = Some (set_pc Drain
               (add_output
                  (CloseServerTransport
                   :: shutdown_log "TThreadedServer: Exception shutting down: "
                        (close_serverTransport env)) s)))
  ∧ (pc s = Drain → tasks_ s ≠ ∅ → wait env = Returns () →
     step (AServe env) s = Some (set_pc Drain (add_output [Wait] s)))
  ∧ (pc s = Drain → tasks_ s = ∅ → step (AServe env) s = Some (set_pc Reset s))
  ∧ (pc s = Drain → tasks_ s ≠ ∅ → wait env ≠ Returns () →
     thrift_failure_at_most (wait env) →
     step (AServe env) s
     = Some (set_pc Reset
               (add_output
                  (Wait :: shutdown_log "TThreadedServer: Exception joining workers: "
                             (wait env)) s)))
  ∧ (pc s = Reset → step (AServe env) s = Some (set_pc Done (set_stop false s)))
  ∧ (pc s = LoopHead → stop_ s = true → tasks_ s = ∅ →
     thrift_failure_at_most (close_serverTransport env) →
     exec [AServe env; AServe env; AServe env; AServe env] s
     = Some (set_pc Done
               (set_stop false
                  (add_output
                     (CloseServerTransport
                      :: shutdown_log "TThreadedServer: Exception shutting down: "
                           (close_serverTransport env)) s))))
  ∧ (pc s = Done → stop_ s = false → listen env = Returns () → preServe env = None →
     ∃ s', exec [AServe env; AServe env] s = Some s'
           ∧ pc s' = InTry ∧ output s' = output s ++ [Listen]
           ∧ stop_ s' = false ∧ tasks_ s' = tasks_ s).
Proof.
  destruct s as [ts st out th cl it ot ip op p]. cbn [pc stop_ tasks_].
  assert (∀ P : Prop, P → ∀ `{!Decision P}, bool_decide P = true) as Htrue
    by (intros; by apply bool_decide_eq_true).
  assert (∀ P : Prop, ¬ P → ∀ `{!Decision P}, bool_decide P = false) as Hfalse
    by (intros; by apply bool_decide_eq_false).
  split_and!.
  - by intros -> ->.
  - intros -> -> Hclose. unfold step. serve_unfold. mstate.
    destruct (close_serverTransport env) as [[]|[]]; cbn in Hclose; try done;
      mstate; do 2 f_equal; by app_normal.
  - intros -> Hts Hwait. unfold step. serve_unfold. mstate.
    by rewrite (Hfalse _ Hts), Hwait.
  - intros -> Hts. unfold step. serve_unfold. mstate. by rewrite (Htrue _ Hts).
  - intros -> Hts Hne Hwait. unfold step. serve_unfold. mstate.
    rewrite (Hfalse _ Hts).
    destruct (wait env) as [[]|[]]; cbn in Hwait; try done;
      mstate; do 2 f_equal; by app_normal.
  - by intros ->.
  - intros -> -> Hts Hclose. unfold exec, step. serve_unfold. mstate.
    destruct (close_serverTransport env) as [[]|[]]; cbn in Hclose; try done;
      mstate; rewrite (Htrue _ Hts); do 2 f_equal; by app_normal.
  - intros -> -> Hlisten Hpre. unfold exec, step. serve_unfold. mstate.
    rewrite Hlisten. mstate. rewrite Hpre. by eexists.
Qed.

(** An instance: [stop()] is called on a server without connections. *)
Lemma shutdown_closes_drains_and_resets_witness :
  (λ s, (pc s, stop_ s, output s))
    <$> exec [AServe well_behaved; AServe well_behaved; AServe well_behaved;
              AServe well_behaved]
          (state_after [AServe well_behaved; AStop])
  = Some (Done, false, [Listen; CloseServerTransport]).
Proof.
  destruct (shutdown_closes_drains_and_resets well_behaved
              (state_after [AServe well_behaved; AStop]))
    as (_ & _ & _ & _ & _ & _ & Hshutdown & _).
  rewrite Hshutdown; [|vm_compute; reflexivity..|exact I].
  vm_compute. reflexivity.
Defined.

(** C8, as stated, fails: closing the listening transport throws a
    [std::string], which [serve()] does not catch there; it leaves
    [serve()], nothing is logged, and the stop flag stays set. *)
Lemma unknown_close_failure_leaves_serve :
  (λ s, (pc s, stop_ s, output s))
    <$> exec [AServe well_behaved; AStop; AServe well_behaved;
              AServe listener_close_fails] initial
  = Some (Escaped (StdString "close"), true, [Listen; CloseServerTransport]).
Proof. vm_compute. reflexivity. Qed.

(** No step of the thread in [serve()] takes an address out of [tasks_]. *)
Lemma step_serve_keeps_tasks env s s' :
  step (AServe env) s = Some s' → tasks_ s ⊆ tasks_ s'.
Proof.
  intros Hstep.
  destruct (step_serve_effect env s s' Hstep)
    as [Hts _ _|t _ _ _ Hts _ _ _ _|t _ _ Hts _]; rewrite Hts; [done| |done].
  intros t' Hin. apply elem_of_union. by right.
Qed.

(** C10 (as amended): in a state the machine reaches with a task
    registered and about to be started, when [thread->start()] throws an
    exception that one of the [catch] clauses of the loop takes, and the
    closes of that clause return, the clause closes the two transports
    and the client connection and writes its line (none for a
    [TTransportException] of type [INTERRUPTED] while the stop flag is
    set); the loop goes on, or is left for a [std::string].  The step
    leaves [tasks_] as it was, with the task in it, and starts no
    thread; and no step of [serve()] ever takes an entry out of
    [tasks_]. *)
Theorem failed_start_leaves_the_task_registered env s t e :
  reachable s → pc s = Starting t →
  start env = Throws e → e ≠ Unknown → closes_return env →
  ∃ s',
    step (AServe env) s = Some s'
    ∧ output s'
      = output s ++ [Start t; CloseInputTransport; CloseOutputTransport; CloseClient]
        ++ catch_log (stop_ s) e
    ∧ pc s' = (if e is StdString _ then AfterLoop else LoopHead)
    ∧ tasks_ s' = tasks_ s ∧ t ∈ tasks_ s'
    ∧ threads s' = threads s ∧ threads s' !! t = None
    ∧ ∀ env' s1 s2, step (AServe env') s1 = Some s2 → tasks_ s1 ⊆ tasks_ s2.
Proof.
  intros Hreach Hpc Hstart He (Hi & Ho & Hc).
  destruct (reachable_consistent s Hreach) as (_ & _ & _ & Hst).
  destruct (Hst t Hpc) as (Hin & Hnone & [it' Hit] & [ot' Hot] & [cl' Hcl]).
  destruct s as [ts st out th cl it ot ip op p]. cbn in *. subst.
  assert (∃ s', step (AServe env)
                  (mkState ts st out th (Some cl') (Some it') (Some ot') ip op
                     (Starting t)) = Some s'
                ∧ output s'
                  = out ++ [Start t; CloseInputTransport; CloseOutputTransport; CloseClient]
                    ++ catch_log st e
                ∧ pc s' = (if e is StdString _ then AfterLoop else LoopHead)
                ∧ tasks_ s' = ts ∧ threads s' = th)
    as (s' & Hstep & Hout & Hpc' & Hts & Hth).
  { unfold step. serve_unfold. mstate. rewrite Hstart.
    destruct e as [ty msg|msg|str|]; [| | |done]; mstate; rewrite Hi, Ho, Hc; mstate.
    - destruct st, ty; mstate; eexists; (split; [reflexivity|]); mstate;
        split_and!; try done; by app_normal.
    - eexists; (split; [reflexivity|]); mstate; split_and!; try done; by app_normal.
    - eexists; (split; [reflexivity|]); mstate; split_and!; try done; by app_normal. }
  exists s'. rewrite Hts, Hth. split_and!; [done..|].
  intros env' s1 s2. apply step_serve_keeps_tasks.
Qed.

(** An instance: the thread of the first accepted connection cannot be
    started. *)
Lemma failed_start_leaves_the_task_registered_witness :
  ∃ s',
    step (AServe start_fails) (state_after registered_not_started) = Some s'
    ∧ output s'
      = output (state_after registered_not_started)
        ++ [Start 0; CloseInputTransport; CloseOutputTransport; CloseClient]
        ++ catch_log (stop_ (state_after registered_not_started))
             (TException "pthread_create failed")
    ∧ pc s' = LoopHead
    ∧ 0 ∈ tasks_ s'.
Proof.
  destruct (failed_start_leaves_the_task_registered start_fails
              (state_after registered_not_started) 0 (TException "pthread_create failed"))
    as (s' & Hstep & Hout & Hpc & _ & Hin & _).
  - exists registered_not_started. vm_compute. reflexivity.
  - vm_compute. reflexivity.
  - reflexivity.
  - discriminate.
  - split_and!; reflexivity.
  - by exists s'.
Defined.

(** C10, as stated, fails in what it says of the handler, in two ways.
    With the stop flag set, a [TTransportException] of type [INTERRUPTED]
    thrown by [thread->start()] is taken by the first [catch] clause,
    which closes the transports and the client and writes nothing.  And
    when a close of a [catch] clause throws in its turn, that exception
    leaves [serve()]: the other closes are not attempted, nothing is
    written, and the loop neither goes on nor is left by [break].  The
    task stays in [tasks_] in both. *)
Lemma failed_start_is_not_always_logged :
  stop_ (state_after (registered_not_started ++ [AStop])) = true
  ∧ pc (state_after (registered_not_started ++ [AStop])) = Starting 0
  ∧ (λ s, (pc s, elements (tasks_ s), output s))
      <$> step (AServe start_interrupted)
            (state_after (registered_not_started ++ [AStop]))
    = Some (LoopHead, [0],
            [Listen; Accept; GetInputTransport; GetOutputTransport; GetInputProtocol;
             GetOutputProtocol; NewThread 0; Insert 0; Start 0; CloseInputTransport;
             CloseOutputTransport; CloseClient])
  ∧ (λ s, (pc s, elements (tasks_ s), output s))
      <$> step (AServe start_and_close_fail) (state_after registered_not_started)
    = Some (Escaped (TTransportException (OTHER_TYPE 1) "not open"), [0],
            [Listen; Accept; GetInputTransport; GetOutputTransport; GetInputProtocol;
             GetOutputProtocol; NewThread 0; Insert 0; Start 0; CloseInputTransport]).
Proof. split_and!; vm_compute; reflexivity. Qed.

(** ** Further properties of [Task::run] *)

Section run_outcome.
Context (c : connection) (self : Task).

Lemma after_loop_returns_iff s :
  (after_loop c self s).1 = Ret ()
  ↔ end_returns c
    ∧ transport_failure_at_most (input_close c)
    ∧ transport_failure_at_most (output_close c).
Proof.
  unfold after_loop, connection_end, close_input, close_output, deregister,
    close_catch, end_returns.
  destruct s.
  destruct (eventHandler c) as [[hb [[]|he]]|];
    destruct (input_close c) as [[]|[]];
    destruct (output_close c) as [[]|[]];
    cbn [clientEnd transport_failure_at_most]; mstate; try case_bool_decide;
    mstate; split; try done; try (by intros (? & ? & ?)).
Qed.

(** X1: a run whose loop is left returns exactly when the event handler's
    two calls return and each [close()] returns or fails with a
    [TTransportException]; it then has erased its task from [tasks_],
    and in every other case it leaves [tasks_] as it was. *)
Theorem run_returns_iff_hooks_and_closes_allow fuel n s :
  leaves_at c 0 n → n < fuel →
  ((Task_run c self fuel s).1 = Ret ()
   ↔ begin_returns c ∧ end_returns c
     ∧ transport_failure_at_most (input_close c)
     ∧ transport_failure_at_most (output_close c))
  ∧ ((Task_run c self fuel s).1 = Ret () →
     tasks_ (Task_run c self fuel s).2 = tasks_ s ∖ {[self]})
  ∧ ((Task_run c self fuel s).1 ≠ Ret () →
     tasks_ (Task_run c self fuel s).2 = tasks_ s).
Proof.
  intros Hl Hlt. split_and!.
  - destruct (eventHandler c) as [[[[]|e] he]|] eqn:Hh.
    2:{ rewrite (Task_run_begin_throws c self _ e fuel s Hh eq_refl).
        unfold begin_returns. rewrite Hh. split; [done|by intros [? _]]. }
    all: assert (begin_returns c) as Hb by (unfold begin_returns; by rewrite Hh).
    all: rewrite (Task_run_leaves c self n fuel s Hb Hl Hlt), after_loop_returns_iff.
    all: tauto.
  - destruct (Task_run_cases c self fuel s) as (evs & _ & Hrun).
    destruct (Task_run c self fuel s) as [[[]|e|] s']; [|done..].
    by rewrite Hrun.
  - destruct (Task_run_cases c self fuel s) as (evs & _ & Hrun).
    destruct (Task_run c self fuel s) as [[[]|e|] s']; [done|by rewrite Hrun..].
Qed.

End run_outcome.

(** An instance: the handler throws from [clientEnd], so the run does not
    return and the task stays registered. *)
Lemma run_returns_iff_hooks_and_closes_allow_witness :
  (Task_run failing_hook 0 1 one_task).1 ≠ Ret ()
  ∧ tasks_ (Task_run failing_hook 0 1 one_task).2 = tasks_ one_task.
Proof.
  destruct (run_returns_iff_hooks_and_closes_allow failing_hook 0 1 0 one_task)
    as (Hiff & _ & Hkept); [split; [intros j Hj; lia|reflexivity]|lia|].
  assert ((Task_run failing_hook 0 1 one_task).1 ≠ Ret ()) as Hno.
  { intros Hret. apply Hiff in Hret as (_ & Hend & _). discriminate Hend. }
  split; [done|by apply Hkept].
Defined.

(** X2: an exception thrown by the event handler leaves the run at once.
    From [clientBegin], the run ends before the processor is called; from
    [clientEnd], it ends after the loop and its log line.  In neither
    case is a channel closed or the task erased from [tasks_]. *)
Theorem failing_hook_skips_the_cleanup c self fuel s h e :
  eventHandler c = Some h →
  (clientBegin h = Throws e →
   Task_run c self fuel s = (Exc e, add_output [ClientBegin self] s))
  ∧ (clientBegin h = Returns () → clientEnd h = Throws e →
     ∀ n, leaves_at c 0 n → n < fuel →
       Task_run c self fuel s
       = (Exc e,
          add_output
            (ClientBegin self :: turns self n ++ (last_turn c self n).2
             ++ loop_log (last_turn c self n).1 ++ [ClientEnd self]) s)).
Proof.
  intros Hh. split.
  - intros Hb. by apply (Task_run_begin_throws c self h).
  - intros Hb He n Hl Hlt.
    rewrite (Task_run_leaves c self n fuel s); [|unfold begin_returns; by rewrite Hh|done..].
    unfold after_loop, connection_end, begin_events. rewrite Hh, He. mstate.
    destruct s. mstate. do 2 f_equal. by app_normal.
Qed.

(** An instance: two pipelined requests, a third after which the client
    has nothing more to say, and then [clientEnd] throws. *)
Lemma failing_hook_skips_the_cleanup_witness :
  Task_run (failing_hook_after 2) 0 5 one_task
  = (Exc (TException "hook"),
     add_output
       [ClientBegin 0; Process 0; Peek 0; Process 0; Peek 0; Process 0; ClientEnd 0]
       one_task).
Proof.
  destruct (failing_hook_skips_the_cleanup (failing_hook_after 2) 0 5 one_task
              {| clientBegin := Returns (); clientEnd := Throws (TException "hook") |}
              (TException "hook") eq_refl) as (_ & Hend).
  rewrite (Hend eq_refl eq_refl 2); [reflexivity| |lia].
  split; [|reflexivity].
  intros j Hj. destruct j as [|[|j]]; [reflexivity..|lia].
Defined.

(** ** Every channel is closed once *)

Lemma input_closes_app t evs1 evs2 :
  input_closes t (evs1 ++ evs2) = input_closes t evs1 + input_closes t evs2.
Proof.
  induction evs1 as [|ev evs1 IH]; [done|].
  destruct ev; simpl; rewrite IH; lia.
Qed.

Lemma output_closes_app t evs1 evs2 :
  output_closes t (evs1 ++ evs2) = output_closes t evs1 + output_closes t evs2.
Proof.
  induction evs1 as [|ev evs1 IH]; [done|].
  destruct ev; simpl; rewrite IH; lia.
Qed.

Lemma closes_of_other_task self t evs :
  Forall (is_call self) evs → t ≠ self →
  input_closes t evs = 0 ∧ output_closes t evs = 0.
Proof.
  intros Hall Hne. induction Hall as [|ev evs Hev _ [IHi IHo]]; [done|].
  destruct ev; simpl in *; try done; subst; by rewrite decide_False by done.
Qed.

Lemma closes_turns self n :
  input_closes self (turns self n) = 0 ∧ output_closes self (turns self n) = 0.
Proof. by induction n. Qed.

Lemma closes_last_turn c self k :
  input_closes self (last_turn c self k).2 = 0
  ∧ output_closes self (last_turn c self k).2 = 0.
Proof.
  unfold last_turn.
  by destruct (process c k) as [[]|e]; [destruct (peek c k) as [[]|e']|..].
Qed.

Lemma closes_loop_log self r :
  input_closes self (loop_log r) = 0 ∧ output_closes self (loop_log r) = 0.
Proof. by destruct r. Qed.

Lemma closes_begin_events c self :
  input_closes self (begin_events c self) = 0
  ∧ output_closes self (begin_events c self) = 0.
Proof. unfold begin_events. by destruct (eventHandler c). Qed.

(** After the loop a run closes each channel at most once, the output
    channel only after the input channel, and each once when it
    returns. *)
Lemma after_loop_closes c self s :
  ∃ evs,
    output (after_loop c self s).2 = output s ++ evs
    ∧ input_closes self evs ≤ 1
    ∧ output_closes self evs ≤ input_closes self evs
    ∧ ((after_loop c self s).1 = Ret () →
       input_closes self evs = 1 ∧ output_closes self evs = 1).
Proof.
  unfold after_loop, connection_end, close_input, close_output, deregister, close_catch.
  destruct s.
  destruct (eventHandler c) as [[hb [[]|he]]|];
    destruct (input_close c) as [[]|[]];
    destruct (output_close c) as [[]|[]];
    cbn [clientEnd]; mstate; try case_bool_decide; app_normal;
    eexists; (split; [reflexivity|]); simpl; rewrite ?decide_True by done;
    split_and!; try done; lia.
Qed.

(** X3: a run of [Task::run], however it ends, calls [close()] on its
    input channel at most once, and on its output channel at most once
    and only after it has called it on the input channel; a run that
    returns has called it once on each.  It closes the channels of no
    other task. *)
Theorem every_channel_is_closed_once c self fuel s :
  ∃ evs,
    output (Task_run c self fuel s).2 = output s ++ evs
    ∧ input_closes self evs ≤ 1
    ∧ output_closes self evs ≤ input_closes self evs
    ∧ ((Task_run c self fuel s).1 = Ret () →
       input_closes self evs = 1 ∧ output_closes self evs = 1)
    ∧ (∀ t, t ≠ self → input_closes t evs = 0 ∧ output_closes t evs = 0).
Proof.
  assert (∀ ts t', input_closes t' (Erase self :: notification ts) = 0
                   ∧ output_closes t' (Erase self :: notification ts) = 0) as Hdereg.
  { intros ts t'. unfold notification. by case_bool_decide. }
  assert (∃ evs, output (Task_run c self fuel s).2 = output s ++ evs
                 ∧ input_closes self evs ≤ 1
                 ∧ output_closes self evs ≤ input_closes self evs
                 ∧ ((Task_run c self fuel s).1 = Ret () →
                    input_closes self evs = 1 ∧ output_closes self evs = 1))
    as (evs & Hout & Hi & Ho & Hret).
  { destruct (eventHandler c) as [[[[]|e] he]|] eqn:Hh.
    2:{ rewrite (Task_run_begin_throws c self _ e fuel s Hh eq_refl).
        exists [ClientBegin self]. by split_and!; [done|simpl; lia..|]. }
    all: assert (begin_returns c) as Hb by (unfold begin_returns; by rewrite Hh).
    all: destruct (leaves_or_not c fuel 0) as [(n & Hlt & Hl)|Hall].
    2,4: rewrite (Task_run_cut_off_eq c self fuel s Hb Hall);
         exists (begin_events c self ++ turns self fuel);
         rewrite input_closes_app, output_closes_app;
         destruct (closes_begin_events c self) as [-> ->];
         destruct (closes_turns self fuel) as [-> ->];
         by split_and!; [done|simpl; lia..|].
    all: rewrite (Task_run_leaves c self n fuel s Hb Hl Hlt).
    all: set (pre := begin_events c self ++ _).
    all: destruct (after_loop_closes c self (add_output pre s))
           as (evs2 & Hout & Hi & Ho & Hret).
    all: assert (input_closes self pre = 0 ∧ output_closes self pre = 0) as [Hpi Hpo]
           by (unfold pre;
               rewrite !input_closes_app, !output_closes_app;
               destruct (closes_begin_events c self) as [-> ->];
               destruct (closes_turns self n) as [-> ->];
               destruct (closes_last_turn c self n) as [-> ->];
               destruct (closes_loop_log self (last_turn c self n).1) as [-> ->]; done).
    all: exists (pre ++ evs2); rewrite Hout, output_add_output, input_closes_app,
           output_closes_app, Hpi, Hpo; split_and!; [by app_normal|done..]. }
  exists evs. split_and!; [done..|].
  intros t Hne.
  destruct (Task_run_cases c self fuel s) as (evs' & Hcalls & Hrun).
  destruct (Task_run c self fuel s) as [[[]|e|] s1]; subst s1; cbn [fst snd] in *.
  - rewrite output_set_tasks, output_add_output in Hout.
    apply (inj (app _)) in Hout. subst evs.
    rewrite input_closes_app, output_closes_app.
    destruct (closes_of_other_task self t evs' Hcalls Hne) as [-> ->].
    apply Hdereg.
  - rewrite output_add_output in Hout. apply (inj (app _)) in Hout. subst evs.
    by apply (closes_of_other_task self).
  - rewrite output_add_output in Hout. apply (inj (app _)) in Hout. subst evs.
    by apply (closes_of_other_task self).
Qed.

(** An instance: the client drops the connection, and the input channel
    fails to close; the run has called [close()] once on each channel. *)
Lemma every_channel_is_closed_once_witness :
  ∃ evs,
    output (Task_run dropped_connection 0 5 one_task).2 = output one_task ++ evs
    ∧ input_closes 0 evs = 1 ∧ output_closes 0 evs = 1.
Proof.
  destruct (every_channel_is_closed_once dropped_connection 0 5 one_task)
    as (evs & Hout & _ & _ & Hret & _).
  exists evs. split; [done|]. apply Hret. vm_compute. reflexivity.
Defined.

(** What a step of the thread in [serve()] adds to the history, and what
    it does to the stop flag. *)
Lemma step_serve_history env s s' :
  step (AServe env) s = Some s' →
  (∃ evs, output s' = output s ++ evs
          ∧ ∀ t, input_closes t evs = 0 ∧ output_closes t evs = 0)
  ∧ (stop_ s' = stop_ s ∨ (pc s = Reset ∧ stop_ s' = false)).
Proof.
  destruct s as [ts st out th cl it ot ip op p]. unfold step.
  destruct p; serve_unfold; intros H.
  all: run_in H; simplify_eq.
  all: mstate; (split; [|by auto]).
  all: first
    [ exists []; by rewrite app_nil_r
    | app_normal; eexists; split; [reflexivity|done] ].
Qed.

(** ** Further properties of the machine *)

(** X6: a step changes the stop flag only when it is a call of [stop()],
    which sets it, or the last statement of the shutdown in [serve()],
    which clears it.  The accept loop and the tasks never set it. *)
Theorem stop_flag_is_set_by_stop_and_cleared_by_reset a s s' :
  step a s = Some s' →
  stop_ s' = stop_ s
  ∨ (a = AStop ∧ stop_ s' = true)
  ∨ ((∃ env, a = AServe env) ∧ pc s = Reset ∧ stop_ s' = false).
Proof.
  intros Hstep. destruct a as [env|t c fuel|].
  - destruct (step_serve_history env s s' Hstep) as [_ [?|[? ?]]]; [by left|].
    right. right. split_and!; [by eexists|done..].
  - left. by destruct (step_worker t c fuel s s' Hstep) as (_ & evs & [->|[e ->]]).
  - right. left. by injection Hstep as <-.
Qed.

(** An instance: a task runs to its end while [serve()] waits for it
    with the stop flag set, and the flag stays set. *)
Lemma stop_flag_is_set_by_stop_and_cleared_by_reset_witness :
  ∃ s', step (AWorker 0 one_request 1) (state_after draining_one_task) = Some s'
        ∧ stop_ s' = true.
Proof.
  destruct (step (AWorker 0 one_request 1) (state_after draining_one_task))
    as [s'|] eqn:Hstep; [|vm_compute in Hstep; discriminate].
  exists s'. split; [done|].
  destruct (stop_flag_is_set_by_stop_and_cleared_by_reset _ _ _ Hstep)
    as [->|[[? _]|[[? ?] _]]]; [vm_compute; reflexivity|done..].
Defined.

(** ** Further properties of [serve()] *)

(** X7: when [listen()] throws, [serve()] ends at once: it does not call
    [preServe], accepts nothing, and leaves [tasks_], the threads and
    the stop flag alone.  A [TTransportException] is logged and
    [serve()] returns; any other exception, a [TException] included,
    leaves [serve()] unlogged. *)
Theorem listen_failure_ends_serve env s e :
  outside_serve s → listen env = Throws e →
  ∃ s',
    step (AServe env) s = Some s'
    ∧ tasks_ s' = tasks_ s ∧ threads s' = threads s ∧ stop_ s' = stop_ s
    ∧ match e with
      | TTransportException _ msg =>
          pc s' = Done
          ∧ output s'
            = output s
              ++ [Listen; GlobalOutput ("TThreadedServer::run() listen(): " +:+ msg)]
      | _ => pc s' = Escaped e ∧ output s' = output s ++ [Listen]
      end.
Proof.
  intros Hout Hlisten. destruct s as [ts st out th cl it ot ip op p].
  unfold outside_serve in Hout. cbn in Hout.
  destruct Hout as [->|[->|[e' ->]]]; unfold step; serve_unfold; mstate;
    rewrite Hlisten; destruct e; mstate; eexists; (split; [reflexivity|]); mstate;
    split_and!; try done; by app_normal.
Qed.

(** An instance: the port is taken. *)
Lemma listen_failure_ends_serve_witness :
  (λ s, (pc s, output s))
    <$> step (AServe (cannot_listen (TTransportException (OTHER_TYPE 1) "bind")))
          initial
  = Some (Done, [Listen; GlobalOutput "TThreadedServer::run() listen(): bind"]).
Proof.
  destruct (listen_failure_ends_serve
              (cannot_listen (TTransportException (OTHER_TYPE 1) "bind")) initial
              (TTransportException (OTHER_TYPE 1) "bind"))
    as (s' & -> & _ & _ & _ & Hpc & Hout); [by left|reflexivity|].
  cbn. by rewrite Hpc, Hout.
Defined.

(** Single steps of [serve()], for the proofs below. *)
Lemma exec_cons a l s s1 : step a s = Some s1 → exec (a :: l) s = exec l s1.
Proof. intros Hstep. simpl. by rewrite Hstep. Qed.

Lemma step_enter env s :
  outside_serve s → listen env = Returns () →
  (preServe env = None ∨ preServe env = Some (Returns ())) →
  step (AServe env) s
  = Some (set_pc LoopHead (add_output (Listen :: preServe_events env) (null_locals s))).
Proof.
  intros Hout Hlisten Hpre. destruct s as [ts st out th cl it ot ip op p].
  unfold outside_serve in Hout. cbn in Hout. unfold preServe_events, null_locals.
  destruct Hout as [->|[->|[e' ->]]]; unfold step; serve_unfold; mstate;
    rewrite Hlisten; mstate; (destruct Hpre as [->| ->]); mstate;
    do 2 f_equal; by app_normal.
Qed.

Lemma step_loop_head env s :
  pc s = LoopHead →
  step (AServe env) s = Some (set_pc (if stop_ s then AfterLoop else InTry) s).
Proof.
  destruct s as [ts st out th cl it ot ip op p]. cbn. intros ->. by destruct st.
Qed.

Lemma step_after_loop env s :
  pc s = AfterLoop → stop_ s = true →
  thrift_failure_at_most (close_serverTransport env) →
  step (AServe env) s
  = Some (set_pc Drain
            (add_output
               (CloseServerTransport
                :: shutdown_log "TThreadedServer: Exception shutting down: "
                     (close_serverTransport env)) s)).
Proof.
  destruct s as [ts st out th cl it ot ip op p]. cbn [pc stop_].
  intros -> -> Hclose. unfold step. serve_unfold. mstate.
  destruct (close_serverTransport env) as [[]|[]]; cbn in Hclose; try done;
    mstate; do 2 f_equal; by app_normal.
Qed.

Lemma step_drain env s s' :
  pc s = Drain → step (AServe env) s = Some s' →
  (tasks_ s = ∅ ∧ s' = set_pc Reset s)
  ∨ (tasks_ s ≠ ∅ ∧ wait env = Returns () ∧ s' = set_pc Drain (add_output [Wait] s))
  ∨ (tasks_ s ≠ ∅ ∧ ∃ e, wait env = Throws e).
Proof.
  destruct s as [ts st out th cl it ot ip op p]. cbn [pc tasks_].
  intros ->. unfold step. serve_unfold. mstate.
  case_bool_decide as Hts; [intros [= <-]; by left|].
  destruct (wait env) as [[]|e]; mstate.
  - intros [= <-]. right. left. done.
  - intros _. right. right. eauto.
Qed.

Lemma step_drain_empty env s :
  pc s = Drain → tasks_ s = ∅ → step (AServe env) s = Some (set_pc Reset s).
Proof.
  destruct s as [ts st out th cl it ot ip op p]. cbn [pc tasks_].
  intros -> Hts. unfold step. serve_unfold. mstate.
  by rewrite bool_decide_true by done.
Qed.

Lemma step_drain_waits env s :
  pc s = Drain → tasks_ s ≠ ∅ → wait env = Returns () →
  step (AServe env) s = Some (set_pc Drain (add_output [Wait] s)).
Proof.
  destruct s as [ts st out th cl it ot ip op p]. cbn [pc tasks_].
  intros -> Hts Hwait. unfold step. serve_unfold. mstate.
  by rewrite bool_decide_false, Hwait by done.
Qed.

Lemma step_reset env s :
  pc s = Reset → step (AServe env) s = Some (set_pc Done (set_stop false s)).
Proof. destruct s as [ts st out th cl it ot ip op p]. cbn. by intros ->. Qed.

(** X8: when the stop flag is already set as [serve()] is called, on a
    server without registered tasks, [serve()] listens, calls [preServe]
    if a handler is installed, and goes straight through its shutdown:
    it accepts no connection, closes the listening transport, and
    returns with the stop flag cleared. *)
Theorem stop_before_serve_shuts_down_at_once env s :
  outside_serve s → stop_ s = true → tasks_ s = ∅ →
  listen env = Returns () →
  (preServe env = None ∨ preServe env = Some (Returns ())) →
  thrift_failure_at_most (close_serverTransport env) →
  ∃ s',
    exec [AServe env; AServe env; AServe env; AServe env; AServe env] s = Some s'
    ∧ pc s' = Done ∧ stop_ s' = false
    ∧ tasks_ s' = ∅ ∧ threads s' = threads s
    ∧ output s'
      = output s ++ Listen :: preServe_events env
        ++ CloseServerTransport
           :: shutdown_log "TThreadedServer: Exception shutting down: "
                (close_serverTransport env).
Proof.
  intros Hout Hstop Hts Hlisten Hpre Hclose.
  pose proof (step_enter env s Hout Hlisten Hpre) as H1.
  set (s1 := set_pc LoopHead _) in H1.
  pose proof (step_loop_head env s1 eq_refl) as H2.
  replace (stop_ s1) with true in H2 by (by rewrite <-Hstop; destruct s).
  set (s2 := set_pc AfterLoop s1) in H2.
  assert (stop_ s2 = true) as Hstop2 by (by rewrite <-Hstop; destruct s).
  pose proof (step_after_loop env s2 eq_refl Hstop2 Hclose) as H3.
  set (s3 := set_pc Drain _) in H3.
  assert (tasks_ s3 = ∅) as Hts3 by (by rewrite <-Hts; destruct s).
  pose proof (step_drain_empty env s3 eq_refl Hts3) as H4.
  pose proof (step_reset env (set_pc Reset s3) eq_refl) as H5.
  exists (set_pc Done (set_stop false (set_pc Reset s3))). split.
  - rewrite (exec_cons _ _ _ _ H1), (exec_cons _ _ _ _ H2), (exec_cons _ _ _ _ H3),
      (exec_cons _ _ _ _ H4), (exec_cons _ _ _ _ H5). done.
  - unfold s3, s2, s1. destruct s. cbn in Hts. cbn.
    split_and!; try done. by app_normal.
Qed.

(** An instance: [stop()] is called on a new server before [serve()]. *)
Lemma stop_before_serve_shuts_down_at_once_witness :
  (λ s, (pc s, stop_ s, output s))
    <$> exec [AStop; AServe well_behaved; AServe well_behaved; AServe well_behaved;
              AServe well_behaved; AServe well_behaved] initial
  = Some (Done, false, [Listen; CloseServerTransport]).
Proof.
  destruct (stop_before_serve_shuts_down_at_once well_behaved (set_stop true initial))
    as (s' & Hexec & Hpc & Hstop & _ & _ & Hout);
    [by left|reflexivity|reflexivity|reflexivity|by left|exact I|].
  rewrite (exec_cons AStop _ initial (set_stop true initial) eq_refl), Hexec.
  cbn [fmap option_fmap option_map]. by rewrite Hpc, Hstop, Hout.
Defined.


Tactic Notation "serve_unfold" "in" hyp(H) :=
  cbv beta iota delta
    [serve serve_listen serve_preServe serve_try_accept serve_start
     close_if_set close_created serve_catch guarded next_pc shutdown_catch
     serve_close_listener serve_join new_Task serve_locals stop] in H.




(** X10: [serve()] has no [catch] clause for an exception that is
    neither a [TException] nor a [std::string], and none around the
    closes inside its [catch] clauses.  Such an exception thrown in the
    [try] block leaves [serve()] at once, with nothing closed and
    nothing logged; an exception thrown by the first close of a [catch]
    clause leaves [serve()] too, before the other closes and the log
    line. *)
Theorem uncaught_exception_leaves_serve env s :
  (pc s = InTry → ∀ s1, serve_try_accept env s = (Exc Unknown, s1) →
   step (AServe env) s = Some (set_pc (Escaped Unknown) s1))
  ∧ (∀ t, pc s = Starting t → start env = Throws Unknown →
     step (AServe env) s = Some (set_pc (Escaped Unknown) (add_output [Start t] s)))
  ∧ (∀ t e e', pc s = Starting t → start env = Throws e → e ≠ Unknown →
     is_Some (inputTransport s) → close_inputTransport env = Throws e' →
     step (AServe env) s
     = Some (set_pc (Escaped e') (add_output [Start t; CloseInputTransport] s))).
Proof.
  split_and!.
  - intros Hpc s1 Htry. unfold step. rewrite Hpc. cbn [serve].
    rewrite bind_eq. unfold guarded, try_catch. by rewrite bind_eq, Htry.
  - intros t Hpc Hstart. destruct s as [ts st out th cl it ot ip op p].
    cbn in Hpc. subst p. unfold step. serve_unfold. mstate. by rewrite Hstart.
  - intros t e e' Hpc Hstart He [h Hit] Hclose.
    destruct s as [ts st out th cl it ot ip op p].
    cbn in Hpc, Hit. subst p it. unfold step. serve_unfold. mstate.
    rewrite Hstart. destruct e; try done; mstate; rewrite Hclose; mstate;
      do 2 f_equal; by app_normal.
Qed.

(** An instance: the thread cannot be started, and the input transport
    then fails to close. *)
Lemma uncaught_exception_leaves_serve_witness :
  (λ s, (pc s, output s))
    <$> step (AServe start_and_close_fail) (state_after registered_not_started)
  = Some (Escaped (TTransportException (OTHER_TYPE 1) "not open"),
          [Listen; Accept; GetInputTransport; GetOutputTransport; GetInputProtocol;
           GetOutputProtocol; NewThread 0; Insert 0; Start 0; CloseInputTransport]).
Proof.
  destruct (uncaught_exception_leaves_serve start_and_close_fail
              (state_after registered_not_started)) as (_ & _ & Hclose).
  rewrite (Hclose 0 (TException "pthread_create failed")
             (TTransportException (OTHER_TYPE 1) "not open"));
    [|vm_compute; reflexivity|reflexivity|discriminate|vm_compute; by eexists
     |reflexivity].
  vm_compute. reflexivity.
Defined.

(** ** The wait for the running tasks *)

(** A step of [serve()] at its wait, with a task registered. *)
Lemma step_drain_blocked env s t :
  pc s = Drain → t ∈ tasks_ s →
  (wait env = Returns () →
   step (AServe env) s = Some (set_pc Drain (add_output [Wait] s)))
  ∧ (∀ s', step (AServe env) s = Some s' → pc s' ≠ Drain → ∃ e, wait env = Throws e).
Proof.
  intros Hpc Hin.
  assert (tasks_ s ≠ ∅) as Hne by (intros Hts; rewrite Hts in Hin; by apply not_elem_of_empty in Hin).
  split.
  - intros Hwait. by apply step_drain_waits.
  - intros s' Hstep Hpc'.
    destruct (step_drain env s s' Hpc Hstep) as [[Hts _]|[(_ & _ & ->)|[_ He]]]; done.
Qed.

(** X11: while the last registered task is running, [serve()] at its
    wait goes back to waiting whenever it is woken.  When that task's run
    ends (its hooks returning, its closes returning or failing with a
    [TTransportException]), the run notifies the monitor as its last
    event, [tasks_] is empty, and the next two steps of [serve()] leave
    the wait, clear the stop flag and return. *)
Theorem last_deregistration_releases_the_shutdown t c fuel n env s :
  pc s = Drain → tasks_ s = {[t]} → threads s !! t = Some Running →
  begin_returns c → end_returns c →
  transport_failure_at_most (input_close c) →
  transport_failure_at_most (output_close c) →
  leaves_at c 0 n → n < fuel →
  (wait env = Returns () →
   step (AServe env) s = Some (set_pc Drain (add_output [Wait] s)))
  ∧ ∃ s',
      exec [AWorker t c fuel; AServe env; AServe env] s = Some s'
      ∧ pc s' = Done ∧ stop_ s' = false ∧ tasks_ s' = ∅
      ∧ threads s' = <[t := Returned]> (threads s)
      ∧ output s'
        = output s
          ++ (begin_events c t ++ turns t n ++ (last_turn c t n).2
              ++ loop_log (last_turn c t n).1 ++ end_events c t
              ++ CloseInput t
                 :: close_log "TThreadedServer input close failed: " (input_close c)
              ++ CloseOutput t
                 :: close_log "TThreadedServer output close failed: " (output_close c))
          ++ [Erase t; Notify].
Proof.
  intros Hpc Hts Hthr Hb He Hi Ho Hn Hfuel. split.
  - intros Hwait. apply (step_drain_blocked env s t Hpc); [|done].
    rewrite Hts. by apply elem_of_singleton.
  - pose proof (Task_run_clean c t fuel n s Hb He Hi Ho Hn Hfuel) as Hrun.
    rewrite Hts, difference_diag_L in Hrun.
    unfold notification in Hrun. rewrite bool_decide_true in Hrun by done.
    set (evs := begin_events c t ++ _) in *.
    set (s1 := set_thread t Returned (set_tasks ∅ (add_output (evs ++ [Erase t; Notify]) s))).
    assert (step (AWorker t c fuel) s = Some s1) as H1
      by (unfold step; by rewrite Hthr, Hrun).
    assert (pc s1 = Drain) as Hpc1 by (by destruct s).
    assert (tasks_ s1 = ∅) as Hts1 by (by destruct s).
    pose proof (step_drain_empty env s1 Hpc1 Hts1) as H2.
    set (s2 := set_pc Reset s1) in H2.
    assert (pc s2 = Reset) as Hpc2 by (by destruct s).
    pose proof (step_reset env s2 Hpc2) as H3.
    exists (set_pc Done (set_stop false s2)).
    rewrite (exec_cons _ _ _ _ H1), (exec_cons _ _ _ _ H2), (exec_cons _ _ _ _ H3).
    by destruct s.
Qed.

(** An instance: [serve()] waits for the one task it started. *)
Lemma last_deregistration_releases_the_shutdown_witness :
  (λ s, (pc s, stop_ s, elements (tasks_ s), output s))
    <$> exec [AWorker 0 one_request 1; AServe well_behaved; AServe well_behaved]
          (state_after draining_one_task)
  = Some (Done, false, [],
          [Listen; Accept; GetInputTransport; GetOutputTransport; GetInputProtocol;
           GetOutputProtocol; NewThread 0; Insert 0; Start 0; CloseServerTransport;
           Process 0; CloseInput 0; CloseOutput 0; Erase 0; Notify]).
Proof.
  destruct (last_deregistration_releases_the_shutdown 0 one_request 1 0 well_behaved
              (state_after draining_one_task))
    as (_ & s' & Hexec & Hpc & Hstop & Hts & _ & Hout);
    [vm_compute; reflexivity..|split; [intros j Hj; lia|reflexivity]|lia|].
  rewrite Hexec. cbn [fmap option_fmap option_map]. rewrite Hpc, Hstop, Hts, Hout.
  do 2 f_equal.
Defined.

(** ** Addresses that are handed out again *)

(** A step of the accept loop in which every call returns, up to
    [tasks_.insert(task)]. *)
Lemma step_register env s :
  pc s = InTry → accepts env → threads s !! allocated env ≠ Some Running →
  ∃ s',
    step (AServe env) s = Some s'
    ∧ pc s' = Starting (allocated env)
    ∧ tasks_ s' = {[allocated env]} ∪ tasks_ s
    ∧ threads s' = delete (allocated env) (threads s).
Proof.
  destruct s as [ts st out th cl it ot ip op p]. cbn [pc threads tasks_].
  intros -> (Ha & Hit & Hot & Hip & Hop & Hnt) Hlive.
  unfold step. serve_unfold. mstate.
  destruct (accept env); [|done]. mstate.
  destruct (getInputTransport env); [|done]. mstate.
  destruct (getOutputTransport env); [|done]. mstate.
  destruct (getInputProtocol env); [|done]. mstate.
  destruct (getOutputProtocol env); [|done]. mstate.
  destruct (th !! allocated env) as [[]|] eqn:Hth; [done|..]; mstate;
    (destruct (newThread env) as [[]|]; [|done]); mstate;
    eexists; (split; [reflexivity|]); by mstate.
Qed.

(** [thread->start()] returns. *)
Lemma step_start env s t :
  pc s = Starting t → start env = Returns () →
  step (AServe env) s
  = Some (set_pc LoopHead (set_thread t Running (add_output [Start t] s))).
Proof.
  destruct s as [ts st out th cl it ot ip op p]. cbn [pc].
  intros -> Hstart. unfold step. serve_unfold. mstate. rewrite Hstart. by mstate.
Qed.

(** X5: [tasks_] is a set of addresses.  When the allocator hands out
    the address of an entry that is still in [tasks_] (left there by a
    task whose thread could not be started, or whose run was left by an
    exception), [tasks_.insert(task)] changes nothing; the thread of the
    new task is started, and when its run returns, its [erase(this)]
    takes the entry out: the entry of the earlier task goes with it. *)
Theorem reused_address_clears_the_stale_entry env c fuel n s :
  pc s = InTry → allocated env ∈ tasks_ s →
  threads s !! allocated env ≠ Some Running →
  accepts env → start env = Returns () →
  begin_returns c → end_returns c →
  transport_failure_at_most (input_close c) →
  transport_failure_at_most (output_close c) →
  leaves_at c 0 n → n < fuel →
  ∃ s1 s3,
    step (AServe env) s = Some s1
    ∧ pc s1 = Starting (allocated env) ∧ tasks_ s1 = tasks_ s
    ∧ exec [AServe env; AWorker (allocated env) c fuel] s1 = Some s3
    ∧ tasks_ s3 = tasks_ s ∖ {[allocated env]}
    ∧ threads s3 !! allocated env = Some Returned.
Proof.
  intros Hpc Hin Hlive Hacc Hstart Hb He Hi Ho Hn Hfuel.
  destruct (step_register env s Hpc Hacc Hlive) as (s1 & H1 & Hpc1 & Hts1 & Hth1).
  assert (tasks_ s1 = tasks_ s) as Hsame.
  { rewrite Hts1. apply set_eq. intros t. rewrite elem_of_union, elem_of_singleton.
    split; [intros [->|?]; done|by right]. }
  pose proof (step_start env s1 _ Hpc1 Hstart) as H2.
  set (s2 := set_pc LoopHead _) in H2.
  assert (threads s2 !! allocated env = Some Running) as Hth2
    by (destruct s1; cbn; by rewrite lookup_insert_eq).
  assert (tasks_ s2 = tasks_ s) as Hts2 by (by destruct s1).
  pose proof (Task_run_clean c (allocated env) fuel n s2 Hb He Hi Ho Hn Hfuel) as Hrun.
  exists s1. eexists. split_and!; [done..| | |].
  - rewrite (exec_cons _ _ _ _ H2). cbn [exec]. unfold step at 1.
    rewrite Hth2, Hrun. reflexivity.
  - by rewrite <-Hts2.
  - cbn. by rewrite lookup_insert_eq.
Qed.

(** An instance: the thread of the first connection could not be
    started; the task of the second connection gets the same address,
    and its run takes the entry out of [tasks_]. *)
Lemma reused_address_clears_the_stale_entry_witness :
  elements (tasks_ (state_after stale_entry)) = [0]
  ∧ (λ s, elements (tasks_ s))
      <$> exec [AServe well_behaved; AServe well_behaved; AWorker 0 one_request 1]
            (state_after stale_entry)
    = Some [].
Proof.
  split; [vm_compute; reflexivity|].
  destruct (reused_address_clears_the_stale_entry well_behaved one_request 1 0
              (state_after stale_entry))
    as (s1 & s3 & H1 & _ & _ & Hexec & Hts3 & _);
    [vm_compute; reflexivity
    |apply (bool_decide_unpack _); vm_compute; exact I
    |vm_compute; discriminate
    |by vm_compute
    |reflexivity
    |exact I..
    |split; [intros j Hj; lia|reflexivity]
    |lia|].
  rewrite (exec_cons _ _ _ _ H1).
  change (allocated well_behaved) with 0 in Hexec, Hts3.
  rewrite Hexec. cbn [fmap option_fmap option_map]. rewrite Hts3.
  vm_compute. reflexivity.
Defined.

(** The task the accept loop is about to start is at the address the
    allocator handed out. *)
Lemma step_serve_starting env s s' t :
  step (AServe env) s = Some s' → pc s' = Starting t → t = allocated env.
Proof.
  destruct s as [ts st out th cl it ot ip op p]. unfold step.
  destruct p; serve_unfold; intros H Hpc.
  all: run_in H; simplify_eq; cbn in Hpc; congruence.
Qed.

(** An address that is registered without a thread stays so as long as
    the allocator does not hand it out. *)
Lemma step_leaked t a s s' :
  leaked t s → ¬ hands_out t a → step a s = Some s' → leaked t s'.
Proof.
  intros (Hin & Hnone & Hpc) Hno Hstep. destruct a as [env|t0 c fuel|].
  - destruct (step_serve_effect env s s' Hstep)
      as [Hts Hth Hpc'|t0 Hpc0 Hpc' Hlive Hts Hth _ _ _|t0 Hpc0 Hpc' Hts Hth];
      unfold leaked; rewrite Hts, Hth; split_and!; try done.
    + apply elem_of_union. by right.
    + by apply lookup_delete_None; right.
    + rewrite Hpc'. intros [= <-]. apply Hno. symmetry.
      apply (step_serve_starting env s s'); [done|by rewrite Hpc'].
    + rewrite lookup_insert_ne; [done|]. intros <-. by rewrite Hpc0 in Hpc.
    + by rewrite Hpc'.
  - destruct (step_worker t0 c fuel s s' Hstep) as (Ht0 & evs & [->|[e ->]]);
      unfold leaked; cbn -[difference]; split_and!; try done.
    + apply elem_of_difference. split; [done|]. rewrite elem_of_singleton.
      intros ->. by rewrite Ht0 in Hnone.
    + rewrite lookup_insert_ne; [done|]. intros ->. by rewrite Ht0 in Hnone.
    + rewrite lookup_insert_ne; [done|]. intros ->. by rewrite Ht0 in Hnone.
  - by injection Hstep as <-.
Qed.

Lemma exec_leaked t l :
  ∀ s s', leaked t s → Forall (λ a, ¬ hands_out t a) l → exec l s = Some s' →
    leaked t s'.
Proof.
  induction l as [|a l IH]; intros s s' Hs Hl; simpl.
  - by intros [= <-].
  - destruct (step a s) as [s1|] eqn:Hstep; [|done].
    apply Forall_cons in Hl as [Ha Hl].
    apply IH; [by apply (step_leaked t a s)|done].
Qed.

(** X13: the address of a task that was registered and whose thread
    could not be started stays in [tasks_] for as long as the allocator
    does not hand it out again.  Until then, once [serve()] is at its
    wait, every wake-up sends it back to waiting, and only a failure of
    [wait()] itself lets it leave. *)
Theorem unstarted_task_blocks_the_shutdown t s l s' :
  leaked t s → Forall (λ a, ¬ hands_out t a) l → exec l s = Some s' →
  t ∈ tasks_ s' ∧ threads s' !! t = None
  ∧ (pc s' = Drain →
     ∀ env,
       (wait env = Returns () →
        step (AServe env) s' = Some (set_pc Drain (add_output [Wait] s')))
       ∧ (∀ s'', step (AServe env) s' = Some s'' → pc s'' ≠ Drain →
            ∃ e, wait env = Throws e)).
Proof.
  intros Hleak Hl Hexec.
  destruct (exec_leaked t l s s' Hleak Hl Hexec) as (Hin & Hnone & _).
  split_and!; [done..|].
  intros Hpc env. by apply (step_drain_blocked env s' t).
Qed.

(** An instance: the thread of the first connection cannot be started;
    [serve()], stopped afterwards, is sent back to its wait. *)
Lemma unstarted_task_blocks_the_shutdown_witness :
  step (AServe well_behaved)
    (state_after (registered_not_started ++ AServe start_fails
                  :: stopped_after_failed_start))
  = Some (set_pc Drain
            (add_output [Wait]
               (state_after (registered_not_started ++ AServe start_fails
                             :: stopped_after_failed_start)))).
Proof.
  destruct (unstarted_task_blocks_the_shutdown 0
              (state_after (registered_not_started ++ [AServe start_fails]))
              stopped_after_failed_start
              (state_after (registered_not_started ++ AServe start_fails
                            :: stopped_after_failed_start)))
    as (_ & _ & Hdrain).
  - split_and!.
    + apply (bool_decide_unpack _). vm_compute. exact I.
    + vm_compute. reflexivity.
    + vm_compute. discriminate.
  - unfold stopped_after_failed_start.
    repeat (constructor; [cbn; first [lia|tauto]|]). constructor.
  - vm_compute. reflexivity.
  - apply Hdrain; [vm_compute; reflexivity|reflexivity].
Defined.
